(** * The Unsplash photo service of Ghost-Admin (app/services/unsplash.js)

    A shallow embedding of the service object: its fields become a record,
    its methods functions in a state-and-exception monad over that record,
    promises become reified outcomes, and the two ember-concurrency tasks
    that matter for debouncing become a small discrete-event machine.

    Idealisations, stated once:
    - a JavaScript number is an exact rational or one of NaN, +Infinity,
      -Infinity: rounding, overflow of finite sums and the sign of zero are
      not modelled;
    - [fetch], [Response.json], [Response.text] and the coercion of strings
      and objects to numbers belong to the runtime: they are parameters or
      fields of the response record. *)

From Stdlib Require Import QArith Lqa Lia Ascii String.
From stdpp Require Import base option list strings gmap pretty.

Local Open Scope string_scope.
Local Open Scope list_scope.

(** ** JavaScript numbers *)

Inductive jsnum : Type :=
| NaN
| NegInf
| Fin (q : Q)
| PosInf.

Definition js_add (a b : jsnum) : jsnum :=
  match a, b with
  | NaN, _ | _, NaN => NaN
  | PosInf, NegInf | NegInf, PosInf => NaN
  | PosInf, _ | _, PosInf => PosInf
  | NegInf, _ | _, NegInf => NegInf
  | Fin x, Fin y => Fin (x + y)
  end.



Definition js_mul (a b : jsnum) : jsnum :=
  match a, b with
  | NaN, _ | _, NaN => NaN
  | Fin x, Fin y => Fin (x * y)
  | Fin x, PosInf | PosInf, Fin x =>
      match (x ?= 0)%Q with Eq => NaN | Gt => PosInf | Lt => NegInf end
  | Fin x, NegInf | NegInf, Fin x =>
      match (x ?= 0)%Q with Eq => NaN | Gt => NegInf | Lt => PosInf end
  | PosInf, PosInf | NegInf, NegInf => PosInf
  | PosInf, NegInf | NegInf, PosInf => NegInf
  end.

Definition js_div (a b : jsnum) : jsnum :=
  match a, b with
  | NaN, _ | _, NaN => NaN
  | Fin x, Fin y =>
      if Qeq_bool y 0
      then match (x ?= 0)%Q with Eq => NaN | Gt => PosInf | Lt => NegInf end
      else Fin (x / y)
  | Fin _, (PosInf | NegInf) => Fin 0
  | (PosInf | NegInf), (PosInf | NegInf) => NaN
  | PosInf, Fin y => if Qle_bool 0 y then PosInf else NegInf
  | NegInf, Fin y => if Qle_bool 0 y then NegInf else PosInf
  end.

(** [a <= b] as JavaScript evaluates it: false as soon as a NaN is involved. *)
Definition js_le (a b : jsnum) : bool :=
  match a, b with
  | NaN, _ | _, NaN => false
  | NegInf, _ => true
  | _, PosInf => true
  | Fin x, Fin y => Qle_bool x y
  | _, _ => false
  end.

(** [a === b] on numbers. *)
Definition js_strict_eq (a b : jsnum) : bool :=
  match a, b with
  | NegInf, NegInf | PosInf, PosInf => true
  | Fin x, Fin y => Qeq_bool x y
  | _, _ => false
  end.

Definition js_is_nan (a : jsnum) : bool :=
  match a with NaN => true | _ => false end.

Definition js_min2 (a b : jsnum) : jsnum :=
  if js_is_nan a || js_is_nan b then NaN else if js_le a b then a else b.


(** [Math.min(...l)]: +Infinity without arguments, NaN if one of them is. *)
Definition Math_min (l : list jsnum) : jsnum := foldr js_min2 PosInf l.


(** [l.indexOf(x)]: the first index holding a value strictly equal to [x];
    [None] stands for the result -1. *)
Fixpoint indexOf (x : jsnum) (l : list jsnum) : option nat :=
  match l with
  | [] => None
  | y :: l' => if js_strict_eq y x then Some 0 else S <$> indexOf x l'
  end.

(** ** JSON values and JavaScript values built from them *)

#[warnings="-register-all"] Inductive json : Type :=
| JNull
| JBool (b : bool)
| JNum (n : jsnum)
| JStr (s : string)
| JArr (items : list json)
| JObj (props : list (string * json)).

(** The own properties of a parsed object, one entry per key. *)
Fixpoint get_prop (k : string) (props : list (string * json)) : option json :=
  match props with
  | [] => None
  | (k', v) :: rest => if String.eqb k k' then Some v else get_prop k rest
  end.

(** Truthiness, as [||], [if] and [!] use it. *)
Definition truthy (v : json) : bool :=
  match v with
  | JNull => false
  | JBool b => b
  | JNum NaN => false
  | JNum (Fin q) => negb (Qeq_bool q 0)
  | JNum _ => true
  | JStr s => negb (String.eqb s "")
  | JArr _ | JObj _ => true
  end.

(** [a || b] where [a] may be [undefined] ([None]). *)
Definition js_or (a : option json) (b : json) : json :=
  match a with
  | Some v => if truthy v then v else b
  | None => b
  end.

(** A photo as the service holds it: the record the API sent, with the
    [ratio] property that [_addPhoto] stores on it. *)
Record photo : Type := mkPhoto {
  photo_json : json;
  ratio : jsnum;
}.

(** ** HTTP *)

Record request : Type := mkRequest {
  req_url : string;
  req_headers : list (string * string);
}.

(** A [Response]: [headers] is [response.headers.map]; [body_text] is what
    [text()] resolves to and [body_json] what [json()] resolves to, [None]
    when the body is not JSON and [json()] rejects. *)
Record Response : Type := mkResponse {
  status : Z;
  headers : gmap string string;
  body_text : string;
  body_json : option json;
}.

(** What [fetch] settles with. *)
Inductive fetched : Type :=
| NetworkFailure
| Responded (r : Response).

(** What can be thrown, or be the reason of a rejected promise. *)
Inductive exn : Type :=
| TypeError
| SyntaxError
| FetchError
| HttpError (message : json) (r : Response)
| RejectedUndefined.

Inductive result (A : Type) : Type :=
| Ok (a : A)
| Throw (e : exn).
Arguments Ok {A} a.
Arguments Throw {A} e.

(** ** The service object *)

Record service : Type := mkService {
  applicationId : string;
  columnCount : nat;
  columns : list (list photo);
  error : json;
  photos : list photo;
  searchTerm : string;
  _columnHeights : list jsnum;
  _pagination : gmap string string;
  _lastRequestUrl : option string;
  (** derived state of the ember-concurrency tasks *)
  _search_isRunning : bool;
  _loadingTasks_isRunning : bool;
  (** ghost field: the requests handed to [fetch], most recent last *)
  sent : list request;
}.

Definition set_columnCount (v : nat) (s : service) : service :=
  mkService (applicationId s) v (columns s) (error s) (photos s) (searchTerm s)
    (_columnHeights s) (_pagination s) (_lastRequestUrl s)
    (_search_isRunning s) (_loadingTasks_isRunning s) (sent s).

Definition set_columns (v : list (list photo)) (s : service) : service :=
  mkService (applicationId s) (columnCount s) v (error s) (photos s) (searchTerm s)
    (_columnHeights s) (_pagination s) (_lastRequestUrl s)
    (_search_isRunning s) (_loadingTasks_isRunning s) (sent s).

Definition set_error (v : json) (s : service) : service :=
  mkService (applicationId s) (columnCount s) (columns s) v (photos s) (searchTerm s)
    (_columnHeights s) (_pagination s) (_lastRequestUrl s)
    (_search_isRunning s) (_loadingTasks_isRunning s) (sent s).

Definition set_photos (v : list photo) (s : service) : service :=
  mkService (applicationId s) (columnCount s) (columns s) (error s) v (searchTerm s)
    (_columnHeights s) (_pagination s) (_lastRequestUrl s)
    (_search_isRunning s) (_loadingTasks_isRunning s) (sent s).

Definition set_searchTerm (v : string) (s : service) : service :=
  mkService (applicationId s) (columnCount s) (columns s) (error s) (photos s) v
    (_columnHeights s) (_pagination s) (_lastRequestUrl s)
    (_search_isRunning s) (_loadingTasks_isRunning s) (sent s).

Definition set_columnHeights (v : list jsnum) (s : service) : service :=
  mkService (applicationId s) (columnCount s) (columns s) (error s) (photos s) (searchTerm s)
    v (_pagination s) (_lastRequestUrl s)
    (_search_isRunning s) (_loadingTasks_isRunning s) (sent s).

Definition set_pagination (v : gmap string string) (s : service) : service :=
  mkService (applicationId s) (columnCount s) (columns s) (error s) (photos s) (searchTerm s)
    (_columnHeights s) v (_lastRequestUrl s)
    (_search_isRunning s) (_loadingTasks_isRunning s) (sent s).

Definition set_lastRequestUrl (v : option string) (s : service) : service :=
  mkService (applicationId s) (columnCount s) (columns s) (error s) (photos s) (searchTerm s)
    (_columnHeights s) (_pagination s) v
    (_search_isRunning s) (_loadingTasks_isRunning s) (sent s).

Definition set_sent (v : list request) (s : service) : service :=
  mkService (applicationId s) (columnCount s) (columns s) (error s) (photos s) (searchTerm s)
    (_columnHeights s) (_pagination s) (_lastRequestUrl s)
    (_search_isRunning s) (_loadingTasks_isRunning s) v.

Definition set_search_isRunning (v : bool) (s : service) : service :=
  mkService (applicationId s) (columnCount s) (columns s) (error s) (photos s) (searchTerm s)
    (_columnHeights s) (_pagination s) (_lastRequestUrl s)
    v (_loadingTasks_isRunning s) (sent s).

Definition set_loadingTasks_isRunning (v : bool) (s : service) : service :=
  mkService (applicationId s) (columnCount s) (columns s) (error s) (photos s) (searchTerm s)
    (_columnHeights s) (_pagination s) (_lastRequestUrl s)
    (_search_isRunning s) v (sent s).

(** ** Methods run in a state-and-exception monad over the service *)

Definition M (A : Type) : Type := service -> result A * service.

Definition ret {A : Type} (a : A) : M A := fun this => (Ok a, this).

#[global] Instance M_ret : MRet M := @ret.

#[global] Instance M_bind : MBind M := fun A B f m this =>
  match m this with
  | (Ok a, this') => f a this'
  | (Throw e, this') => (Throw e, this')
  end.

Definition throw {A : Type} (e : exn) : M A := fun this => (Throw e, this).

Definition get {A : Type} (field : service -> A) : M A :=
  fun this => (Ok (field this), this).

Definition modify (f : service -> service) : M unit :=
  fun this => (Ok tt, f this).

(** [promise.catch(handler)] and [try ... catch]. *)
Definition catch {A : Type} (m : M A) (handler : exn -> M A) : M A :=
  fun this =>
    match m this with
    | (Ok a, this') => (Ok a, this')
    | (Throw e, this') => handler e this'
    end.

(** [l.forEach(f)]: stops at the first callback that throws. *)
Fixpoint forEach {A : Type} (l : list A) (f : A -> M unit) : M unit :=
  match l with
  | [] => ret tt
  | x :: l' => f x ;; forEach l' f
  end.

(** ** Column balancing *)

(** The fixed width of 300 times the photo's ratio. *)
Definition contribution (p : photo) : jsnum := js_mul (Fin 300) (ratio p).

(** [_addPhotoToColumns(photo)].  With [columnIndex] -1 the update of
    [_columnHeights[-1]] creates a property that is not an element of the
    array and is never read back as one; [columns[-1]] is [undefined] and
    [pushObject] on it throws. *)
Definition _addPhotoToColumns (p : photo) : M unit :=
  heights ← get _columnHeights;
  let min := Math_min heights in
  match indexOf min heights with
  | None => throw TypeError
  | Some columnIndex =>
      modify (set_columnHeights
                (alter (fun h => js_add h (contribution p)) columnIndex heights)) ;;
      cols ← get columns;
      match cols !! columnIndex with
      | None => throw TypeError
      | Some _ => modify (set_columns (alter (fun col => col ++ [p]) columnIndex cols))
      end
  end.

(** [_resetColumns()]. *)
Definition _resetColumns : M unit :=
  n ← get columnCount;
  modify (set_columns (replicate n [])) ;;
  modify (set_columnHeights (replicate n (Fin 0))) ;;
  ps ← get photos;
  match ps : list photo with
  | [] => ret tt
  | _ :: _ => forEach ps _addPhotoToColumns
  end.

(** [_reset()]. *)
Definition _reset : M unit :=
  modify (set_photos []) ;;
  modify (set_pagination ∅) ;;
  _resetColumns.

(** [changeColumnCount(newColumnCount)]. *)
Definition changeColumnCount (newColumnCount : nat) : M unit :=
  n ← get columnCount;
  if negb (Nat.eqb newColumnCount n)
  then modify (set_columnCount newColumnCount) ;; _resetColumns
  else ret tt.

(** ** Constants *)

Definition API_URL : string := "https://api.unsplash.com".
Definition API_VERSION : string := "v1".
Definition DEBOUNCE_MS : nat := 600.

Definition RATE_LIMIT_MESSAGE : string :=
  "Unsplash API rate limit reached, please try again later.".

Definition CONNECTION_MESSAGE : string :=
  "Uh-oh! Trouble reaching the Unsplash API, please check your connection".

(** The template literal of [_checkStatus]. *)
Definition status_message (r : Response) : string :=
  ("Error " ++ pretty (status r) ++ ": Uh-oh! Trouble reaching the Unsplash API")%string.

(** ** The Link header *)

(** The double quote character. *)
Definition dquote : string := String "034"%char "".

(** The regular expression of [_extractPagination], as the sequence of its
    pieces: a literal text, or the capturing group of a greedy dot-star.
    It reads: less-than sign, group, greater-than sign and [; rel=] and a
    double quote, group, double quote. *)
Inductive re_piece : Type :=
| Lit (text : string)
| DotStar.

Definition linkRegex : list re_piece :=
  [Lit "<"; DotStar; Lit (">; rel=" ++ dquote)%string; DotStar; Lit dquote].

(** The dot matches every character but the line terminators. *)
Definition is_line_terminator (c : ascii) : bool :=
  (Ascii.eqb c "010" || Ascii.eqb c "013")%char.

(** [strip_prefix lit s]: the rest of [s] after its prefix [lit]. *)
Fixpoint strip_prefix (lit s : string) : option string :=
  match lit, s with
  | EmptyString, _ => Some s
  | String a lit', String b s' => if Ascii.eqb a b then strip_prefix lit' s' else None
  | String _ _, EmptyString => None
  end.

(** The greedy group before the pieces matched by [rest]: it first takes
    as much as it can and gives characters back one by one until the rest
    matches.  The result is the text of the groups, this one first. *)
Fixpoint greedy (rest : string -> option (list string)) (s : string)
  : option (list string) :=
  let stop := (fun caps => EmptyString :: caps) <$> rest s in
  match s with
  | EmptyString => stop
  | String c s' =>
      if is_line_terminator c then stop
      else match greedy rest s' with
           | Some (cap :: caps) => Some (String c cap :: caps)
           | _ => stop
           end
  end.

(** Backtracking match of the pieces at the start of [s]. *)
Fixpoint match_pieces (pieces : list re_piece) (s : string) : option (list string) :=
  match pieces with
  | [] => Some []
  | Lit text :: rest =>
      match strip_prefix text s with
      | Some s' => match_pieces rest s'
      | None => None
      end
  | DotStar :: rest => greedy (match_pieces rest) s
  end.

(** [regex.exec(s)]: the match that starts leftmost. *)
Fixpoint regex_exec (pieces : list re_piece) (s : string) : option (list string) :=
  match match_pieces pieces s with
  | Some caps => Some caps
  | None =>
      match s with
      | EmptyString => None
      | String _ s' => regex_exec pieces s'
      end
  end.

(** [s.split(',')]. *)
Fixpoint split_commas (s : string) : list string :=
  match s with
  | EmptyString => [EmptyString]
  | String c s' =>
      if Ascii.eqb c ","%char then EmptyString :: split_commas s'
      else match split_commas s' with
           | [] => [String c EmptyString]
           | w :: ws => String c w :: ws
           end
  end.

(** The entries [_extractPagination] loops over: none when the header is
    absent or empty, which [if (link)] takes for false. *)
Definition link_entries (link : option string) : list string :=
  match link with
  | Some (String c l) => split_commas (String c l)
  | _ => []
  end.

(** The loop of [_extractPagination] over the entries of the header, on its
    local object [pagination].  Destructuring the [null] of a failed
    [exec] throws; an assignment to the key [__proto__] of a plain object
    stores nothing when the value is a string. *)
Fixpoint collect_links (entries : list string) (pagination : gmap string string)
  : result (gmap string string) :=
  match entries with
  | [] => Ok pagination
  | link :: rest =>
      match regex_exec linkRegex link with
      | Some [url; rel] =>
          collect_links rest
            (if String.eqb rel "__proto__" then pagination else <[rel := url]> pagination)
      | _ => Throw TypeError
      end
  end.

(** ** Requests and responses *)

Section Service.

(** The runtime's conversion to a number of a string, an array or an
    object; it may throw. *)
Variable coerce : json -> result jsnum.

(** The network: what [fetch] settles with for a request. *)
Variable net : request -> fetched.

Definition lift {A : Type} (r : result A) : M A := fun this => (r, this).

(** [ToNumber] of a property that was read, [None] being [undefined]. *)
Definition ToNumber (v : option json) : result jsnum :=
  match v with
  | None => Ok NaN
  | Some JNull => Ok (Fin 0)
  | Some (JBool b) => Ok (Fin (if b then 1 else 0))
  | Some (JNum n) => Ok n
  | Some other => coerce other
  end.

(** [_addPhoto(photo)].  The module is strict code: storing [ratio] on a
    primitive throws, as does reading a property of [null]. *)
Definition _addPhoto (photo : json) : M unit :=
  r ← match photo with
      | JNull | JBool _ | JNum _ | JStr _ => throw TypeError
      | JArr _ => ret NaN
      | JObj props =>
          h ← lift (ToNumber (get_prop "height" props));
          w ← lift (ToNumber (get_prop "width" props));
          ret (js_div h w)
      end;
  let p := mkPhoto photo r in
  modify (fun this => set_photos (photos this ++ [p]) this) ;;
  _addPhotoToColumns p.

(** [_addPhotosFromResponse(response)]: [response.results || response],
    then [forEach], which only an array has. *)
Definition _addPhotosFromResponse (response : json) : M unit :=
  match response with
  | JNull => throw TypeError
  | JArr items => forEach items _addPhoto
  | JObj props =>
      match get_prop "results" props with
      | Some (JArr items) => forEach items _addPhoto
      | _ => throw TypeError
      end
  | _ => throw TypeError
  end.

(** [json.errors[0]] in the error path of [_checkStatus]. *)
Definition first_error (j : json) : result (option json) :=
  match j with
  | JObj props =>
      match get_prop "errors" props with
      | None | Some JNull => Throw TypeError
      | Some (JArr items) => Ok (head items)
      | Some (JStr (String c _)) => Ok (Some (JStr (String c EmptyString)))
      | Some (JStr EmptyString) => Ok None
      | Some (JObj inner) => Ok (get_prop "0" inner)
      | Some (JBool _ | JNum _) => Ok None
      end
  | _ => Throw TypeError
  end.

(** [response.headers.map[name] === value]. *)
Definition header_is (response : Response) (name value : string) : bool :=
  bool_decide (headers response !! name = Some value).

(** The test for a successful request. *)
Definition ok_status (response : Response) : bool :=
  (200 <=? status response)%Z && (status response <? 300)%Z.

(** What [responseTextPromise] settles with in [_checkStatus]: [Ok None] is
    [undefined], a [Throw] its rejection. *)
Definition responseTextPromise (response : Response) : result (option json) :=
  if header_is response "content-type" "application/json" then
    match body_json response with
    | None => Throw SyntaxError
    | Some j => first_error j
    end
  else if header_is response "content-type" "text/xml" then
    Ok (Some (JStr (body_text response)))
  else Ok None.

(** The text [_checkStatus] resolves once the body was read. *)
Definition resolve_errorText (response : Response) (responseText : option json) : json :=
  let errorText :=
    if (status response =? 403)%Z && header_is response "x-ratelimit-remaining" "0"
    then RATE_LIMIT_MESSAGE else "" in
  js_or (Some (JStr errorText))
    (js_or responseText (JStr (status_message response))).

(** [_checkStatus(response)]; a [Throw] is the rejection of the promise it
    returns. *)
Definition _checkStatus (response : Response) : M Response :=
  if ok_status response then ret response
  else
    responseText ← lift (responseTextPromise response);
    let errorText := resolve_errorText response responseText in
    modify (set_error errorText) ;;
    throw (HttpError errorText response).

(** [_extractPagination(response)]. *)
Definition _extractPagination (response : Response) : M Response :=
  pagination ← lift (collect_links (link_entries (headers response !! "link")) ∅);
  modify (set_pagination pagination) ;;
  ret response.

Definition request_headers (id : string) : list (string * string) :=
  [("Authorization", ("Client-ID " ++ id)%string); ("Accept-Version", API_VERSION)].

(** The text of a URL argument; [undefined] is sent as its name. *)
Definition url_text (url : option string) : string :=
  match url with
  | Some u => u
  | None => "undefined"
  end.

(** The call [fetch(url, {headers})]: the request leaves and is recorded. *)
Definition fetch_send (url : option string) (hdrs : list (string * string)) : M request :=
  let req := mkRequest (url_text url) hdrs in
  modify (fun this => set_sent (sent this ++ [req]) this) ;;
  ret req.

(** The promise of [fetch] settles: rejected without a response. *)
Definition fetch_settle (answer : fetched) : M Response :=
  match answer with
  | NetworkFailure => throw FetchError
  | Responded r => ret r
  end.

(** What [_makeRequest] does up to and with its call of [fetch]. *)
Definition _makeRequest_send (url : option string) : M request :=
  modify (set_error (JStr "")) ;;
  modify (set_lastRequestUrl url) ;;
  id ← get applicationId;
  fetch_send url (request_headers id).

(** The handler of the final [catch] of [_makeRequest]. *)
Definition connection_fallback : M unit :=
  e ← get error;
  if negb (truthy e) then modify (set_error (JStr CONNECTION_MESSAGE)) else ret tt.

(** The chain of [then] of [_makeRequest], run when [fetch] settles. *)
Definition _makeRequest_then (answer : fetched) : M unit :=
  response ← fetch_settle answer;
  response ← _checkStatus response;
  response ← _extractPagination response;
  j ← match body_json response with
      | None => throw SyntaxError
      | Some j => ret j
      end;
  _addPhotosFromResponse j.

(** The chain with its final [catch]. *)
Definition _makeRequest_settle (answer : fetched) : M unit :=
  catch (_makeRequest_then answer) (fun _ => connection_fallback).

(** [_makeRequest(url)], from the call to the settling of the promise it
    returns. *)
Definition _makeRequest (url : option string) : M unit :=
  req ← _makeRequest_send url;
  _makeRequest_settle (net req).

(** ** Tasks and public operations *)

(** What the caller of a public operation gets back. *)
Inductive outcome : Type :=
| ReturnedUndefined
| Fulfilled (value : option Response)
| Rejected (reason : exn)
| Dropped.

(** A promise seen from its consumer: a rejection is a value, not a throw. *)
Definition settle (m : M (option Response)) : M outcome :=
  fun this =>
    match m this with
    | (Ok v, this') => (Ok (Fulfilled v), this')
    | (Throw e, this') => (Ok (Rejected e), this')
    end.

(** A task body, which returns nothing: its instance resolves with
    [undefined]. *)
Definition run_task (body : M unit) : M outcome :=
  settle (body ;; ret None).

(** A task of the group [_loadingTasks], which drops a [perform] while one
    of its tasks runs.  The task is run to its end. *)
Definition perform_loading (body : M unit) : M outcome :=
  busy ← get _loadingTasks_isRunning;
  if (busy : bool) then ret Dropped else run_task body.

Definition load_url : string := (API_URL ++ "/photos?per_page=30")%string.

Definition _loadNew : M outcome :=
  perform_loading (_makeRequest (Some load_url)).

(** [this._pagination.next], [undefined] when the key is absent. *)
Definition pagination_next (this : service) : option string := _pagination this !! "next".

Definition _loadNextPage : M outcome :=
  perform_loading (next ← get pagination_next; _makeRequest next).

Definition _retryLastRequest : M outcome :=
  perform_loading (url ← get _lastRequestUrl; _makeRequest url).

Definition search_url (term : string) : string :=
  (API_URL ++ "/search/photos?query=" ++ term ++ "&per_page=30")%string.

(** The task [_search] run to its end: the wait, then the request. *)
Definition _search (term : string) : M outcome :=
  run_task (_makeRequest (Some (search_url term))).

(** [loadNew()]. *)
Definition loadNew : M outcome :=
  _reset ;; _loadNew.

(** [loadNextPage()]. *)
Definition loadNextPage : M outcome :=
  searching ← get _search_isRunning;
  if (searching : bool) then ret ReturnedUndefined
  else
    ps ← get photos;
    match ps : list photo with
    | [] => _loadNew
    | _ :: _ =>
        next ← get pagination_next;
        match next : option string with
        | Some (String _ _) => _loadNextPage
        | _ => ret (Rejected RejectedUndefined)
        end
    end.

Definition test_url : string := (API_URL ++ "/photos/random")%string.

(** [sendTestRequest(testApplicationId)]. *)
Definition sendTestRequest (testApplicationId : string) : M outcome :=
  settle
    (req ← fetch_send (Some test_url) (request_headers testApplicationId);
     response ← fetch_settle (net req);
     response ← _checkStatus response;
     ret (Some response)).

(** The action [updateSearch(term)]. *)
Definition updateSearch (term : string) : M outcome :=
  current ← get searchTerm;
  if String.eqb term current then ret ReturnedUndefined
  else
    modify (set_searchTerm term) ;;
    _reset ;;
    if negb (String.eqb term "") then _search term else _loadNew.

End Service.

(** The object as the class declares it, before [init()]: the fields that
    are [null] there are empty here. *)
Definition created (id : string) : service :=
  mkService id 3 [] (JStr "") [] "" [] ∅ None false false [].

(** [init()]. *)
Definition init (id : string) : service := (_reset (created id)).2.

(** ** The debounce of the search task as a discrete-event machine

    Time is a clock in milliseconds.  The task [_search] is restartable:
    a [perform] cancels the instance that runs and starts a new one, which
    first waits in [timeout(DEBOUNCE_MS)]; an instance cancelled while it
    waits never reaches its request.  The machine follows the service from
    the calls of [updateSearch] to the moment a request leaves; the
    settling of requests is the business of [_makeRequest_settle]. *)

Record world : Type := mkWorld {
  svc : service;
  clock : nat;
  (** the instance of [_search] that waits: its term and its wake-up time *)
  debounce : option (string * nat);
}.

Inductive event : Type :=
| CallUpdateSearch (term : string)
| Elapse (ms : nat).

(** [this.get('_search').perform(term)] up to the first [yield]. *)
Definition perform_search (term : string) (w : world) : world :=
  mkWorld (set_search_isRunning true (svc w)) (clock w)
    (Some (term, (clock w + DEBOUNCE_MS)%nat)).

(** [this.get('_loadNew').perform()] up to its [yield]: dropped when the
    group is busy, else the request leaves. *)
Definition perform_loadNew (w : world) : world :=
  if _loadingTasks_isRunning (svc w) then w
  else
    mkWorld
      (_makeRequest_send (Some load_url) (set_loadingTasks_isRunning true (svc w))).2
      (clock w) (debounce w).

(** A call of the action [updateSearch]. *)
Definition call_updateSearch (term : string) (w : world) : world :=
  if String.eqb term (searchTerm (svc w)) then w
  else
    match (modify (set_searchTerm term) ;; _reset) (svc w) with
    | (Ok _, this) =>
        let w' := mkWorld this (clock w) (debounce w) in
        if negb (String.eqb term "") then perform_search term w' else perform_loadNew w'
    | (Throw _, this) => mkWorld this (clock w) (debounce w)
    end.

(** Time passes; a wait that ends lets its instance send the request. *)
Definition elapse (ms : nat) (w : world) : world :=
  let now := (clock w + ms)%nat in
  match debounce w with
  | Some (term, wake) =>
      if (wake <=? now)%nat
      then mkWorld (_makeRequest_send (Some (search_url term)) (svc w)).2 now None
      else mkWorld (svc w) now (debounce w)
  | None => mkWorld (svc w) now None
  end.

Definition step (w : world) (e : event) : world :=
  match e with
  | CallUpdateSearch term => call_updateSearch term w
  | Elapse ms => elapse ms w
  end.

Definition run (events : list event) (w : world) : world := foldl step w events.

(** ** The balancing rule in the words of the specification

    The accumulated height of a column is the sum of the contributions of
    its members; a photo is appended to the column whose accumulated height
    is smallest, the lowest index winning a tie. *)

Definition column_height (col : list photo) : jsnum :=
  foldl (fun h p => js_add h (contribution p)) (Fin 0) col.




(** ** Predicates of the statements *)

Definition finite (x : jsnum) : bool :=
  match x with Fin _ => true | _ => false end.

Definition positive (x : jsnum) : bool :=
  match x with Fin q => negb (Qle_bool q 0) | _ => false end.




(** The service once photo [p] is appended to column [i] and its
    contribution added to the height of that column. *)
Definition place (p : photo) (i : nat) (this : service) : service :=
  set_columns (alter (fun col => col ++ [p]) i (columns this))
    (set_columnHeights
       (alter (fun h => js_add h (contribution p)) i (_columnHeights this)) this).

(** Column [i] is the one the balancing rule picks: its height is least,
    and strictly less than that of every column before it. *)
Definition least_loaded (i : nat) (heights : list jsnum) : Prop :=
  exists h,
    heights !! i = Some h
    /\ (forall j hj, heights !! j = Some hj -> js_le h hj = true)
    /\ (forall j hj, (j < i)%nat -> heights !! j = Some hj -> js_le hj h = false).


(** Heights that are finite numbers, one per column, and at least one. *)
Definition finite_layout (this : service) : Prop :=
  _columnHeights this <> []
  /\ Forall (fun h => finite h = true) (_columnHeights this)
  /\ length (columns this) = length (_columnHeights this).


(** No height is NaN. *)
Definition no_nan (heights : list jsnum) : Prop :=
  Forall (fun h => js_is_nan h = false) heights.

(** A column set of [n] empty columns with heights zero. *)
Definition fresh_columns (n : nat) (this : service) : Prop :=
  columns this = replicate n [] /\ _columnHeights this = replicate n (Fin 0).

(** A photo record as the API documents it: an object whose [height] and
    [width] are numbers, the width not zero. *)
Definition photo_record (j : json) : bool :=
  match j with
  | JObj props =>
      match get_prop "height" props, get_prop "width" props with
      | Some (JNum (Fin _)), Some (JNum (Fin w)) => negb (Qeq_bool w 0)
      | _, _ => false
      end
  | _ => false
  end.

(** The ratio [_addPhoto] computes for a record whose [height] and [width]
    are numbers, and the photo it then holds. *)
Definition record_ratio (j : json) : jsnum :=
  match j with
  | JObj props =>
      match get_prop "height" props, get_prop "width" props with
      | Some (JNum h), Some (JNum w) => js_div h w
      | _, _ => NaN
      end
  | _ => NaN
  end.

Definition photo_of (j : json) : photo := mkPhoto j (record_ratio j).

(** A run of [_addPhoto] over records: each photo joins the flat list and
    the column the balancing rule picks at that moment. *)
Inductive added_run : list json -> service -> service -> Prop :=
| added_nil (this : service) :
    added_run [] this this
| added_cons (j : json) (items : list json) (i : nat) (this this' : service) :
    least_loaded i (_columnHeights this) ->
    added_run items
      (place (photo_of j) i (set_photos (photos this ++ [photo_of j]) this)) this' ->
    added_run (j :: items) this this'.

(** The request [_makeRequest(url)] sends, and the service once it left. *)
Definition request_for (url : option string) (this : service) : request :=
  mkRequest (url_text url) (request_headers (applicationId this)).

Definition prepared (url : option string) (this : service) : service :=
  set_sent (sent this ++ [request_for url this])
    (set_lastRequestUrl url (set_error (JStr "") this)).

(** The service after [_reset()]. *)
Definition cleared (this : service) : service :=
  set_columnHeights (replicate (columnCount this) (Fin 0))
    (set_columns (replicate (columnCount this) [])
       (set_pagination ∅ (set_photos [] this))).


(** What the service keeps true of its layout: one height per column, the
    sum of its members' contributions, and no photo in a column that is
    not in the flat list. *)
Definition consistent (this : service) : Prop :=
  length (columns this) = columnCount this
  /\ _columnHeights this = column_height <$> columns this
  /\ concat (columns this) ⊆+ photos this.

(** A computation keeps the layout consistent, whether it returns or
    throws. *)
Definition preserves {A : Type} (m : M A) : Prop :=
  forall this, consistent this -> consistent (m this).2.

(** The public operations, and the services they lead to from [init()],
    each operation run to its end against some network. *)
Inductive operation : Type :=
| LoadNew
| LoadNextPage
| ChangeColumnCount (newColumnCount : nat)
| SendTestRequest (testApplicationId : string)
| UpdateSearch (term : string)
| RetryLastRequest.

Definition perform (coerce : json -> result jsnum) (net : request -> fetched)
    (op : operation) (this : service) : service :=
  match op with
  | LoadNew => (loadNew coerce net this).2
  | LoadNextPage => (loadNextPage coerce net this).2
  | ChangeColumnCount n => (changeColumnCount n this).2
  | SendTestRequest id => (sendTestRequest net id this).2
  | UpdateSearch term => (updateSearch coerce net term this).2
  | RetryLastRequest => (_retryLastRequest coerce net this).2
  end.

Inductive reachable (coerce : json -> result jsnum) : service -> Prop :=
| reachable_init (id : string) :
    reachable coerce (init id)
| reachable_perform (net : request -> fetched) (op : operation) (this : service) :
    reachable coerce this ->
    reachable coerce (perform coerce net op this).

(** A text the dot-star can take whole. *)
Definition no_line_terminator (s : string) : Prop :=
  Forall (fun c => is_line_terminator c = false) (list_ascii_of_string s).

(** What it means for pieces to match at the start of a text, the groups
    holding [caps]: the reading of the expression, without the search. *)
Inductive pieces_match : list re_piece -> string -> list string -> Prop :=
| match_end (s : string) :
    pieces_match [] s []
| match_lit (text : string) (rest : list re_piece) (s : string) (caps : list string) :
    pieces_match rest s caps ->
    pieces_match (Lit text :: rest) (text ++ s)%string caps
| match_group (rest : list re_piece) (cap s : string) (caps : list string) :
    no_line_terminator cap ->
    pieces_match rest s caps ->
    pieces_match (DotStar :: rest) (cap ++ s)%string (cap :: caps).

(** An entry of the Link header matches the pattern when it holds, one
    after the other: a less-than sign, a text, a greater-than sign followed
    by [; rel=] and a double quote, a text, a double quote; the two texts
    without line terminator. *)
Definition matches_link_pattern (entry : string) : Prop :=
  exists before url rel after : string,
    entry = (before ++ "<" ++ url ++ ">; rel=" ++ dquote ++ rel ++ dquote ++ after)%string
    /\ no_line_terminator url /\ no_line_terminator rel.

(** ** Examples *)

(** A record of the API with its dimensions. *)
Definition example_record (height width : Q) : json :=
  JObj [("width", JNum (Fin width)); ("height", JNum (Fin height))].

(** A runtime that converts every string and object to NaN. *)
Definition example_coerce (j : json) : result jsnum := Ok NaN.

(** Responses: a page of two photos, an error with a JSON body, and a
    rate-limited answer whose JSON body holds no [errors]. *)
Definition example_page : Response :=
  mkResponse 200 ∅ "" (Some (JArr [example_record 3 2; example_record 1 1])).

Definition example_unauthorized : Response :=
  mkResponse 401 {["content-type" := "application/json"]} ""
    (Some (JObj [("errors", JArr [JStr "OAuth error: The access token is invalid"])])).

Definition example_rate_limited : Response :=
  mkResponse 403
    (<["x-ratelimit-remaining" := "0"]> {["content-type" := "application/json"]})
    "Rate Limit Exceeded" (Some (JObj [])).

(** A page whose Link header holds a well-formed entry and one without
    relation. *)
Definition example_bad_link : Response :=
  mkResponse 200
    {["link" := ("<https://api.unsplash.com/photos?page=1>; rel=" ++ dquote ++ "first"
                 ++ dquote ++ ", <https://api.unsplash.com/photos?page=3>")%string]}
    "" (Some (JArr [example_record 3 2])).

(** An empty page that announces a next one. *)
Definition example_empty_page : Response :=
  mkResponse 200
    {["link" := ("<https://api.unsplash.com/photos?page=2>; rel=" ++ dquote ++ "next"
                 ++ dquote)%string]}
    "" (Some (JArr [])).

(** A photo of a given ratio. *)
Definition example_photo (q : Q) : photo := mkPhoto (JObj []) (Fin q).

(** ** Definitions for further properties of the code *)

(** A computation keeps [I] true, whether it returns or throws. *)
Definition keeps (I : service -> Prop) {A : Type} (m : M A) : Prop :=
  forall this, I this -> I (m this).2.

(** A reading of the service that does not see what the chain of a request
    writes: the error, the pagination state, the photos, the columns and
    their heights. *)
Definition settle_blind {B : Type} (g : service -> B) : Prop :=
  (forall v s, g (set_error v s) = g s)
  /\ (forall v s, g (set_pagination v s) = g s)
  /\ (forall v s, g (set_photos v s) = g s)
  /\ (forall v s, g (set_columns v s) = g s)
  /\ (forall v s, g (set_columnHeights v s) = g s).

(** A page of search results: the records sit under [results], and the
    Link header announces the last and the next page. *)
Definition example_search_page : Response :=
  mkResponse 200
    {["link" := ("<https://api.unsplash.com/search/photos?page=9>; rel=" ++ dquote ++ "last"
                 ++ dquote ++ ", <https://api.unsplash.com/search/photos?page=2>; rel="
                 ++ dquote ++ "next" ++ dquote)%string]}
    ""
    (Some (JObj [("total", JNum (Fin 250));
                 ("results", JArr [example_record 3 2; example_record 1 1])])).

(** A reading of the service that the sending of a request does not change
    either. *)
Definition request_blind {B : Type} (g : service -> B) : Prop :=
  settle_blind g
  /\ (forall v s, g (set_sent v s) = g s)
  /\ (forall v s, g (set_lastRequestUrl v s) = g s).

(** The column [_addPhotoToColumns] picks for the next photo: its local
    [columnIndex], [None] where [indexOf] gives -1. *)
Definition columnIndex (this : service) : option nat :=
  indexOf (Math_min (_columnHeights this)) (_columnHeights this).

(** The layout is the one [_resetColumns()] computes from the flat list: a
    redistribution would change nothing. *)
Definition laid_out (this : service) : Prop := (_resetColumns this).2 = this.

(** Every column lists its photos in the order of the flat list. *)
Definition arrival_order (this : service) : Prop :=
  Forall (fun col => sublist col (photos this)) (columns this).

(** ** Link headers as the API writes them *)

(** The double quote as a character. *)
Definition quote : ascii := "034"%char.

(** How often a character occurs in a text. *)
Fixpoint occurrences (c : ascii) (s : string) : nat :=
  match s with
  | EmptyString => 0
  | String x s' => (if Ascii.eqb x c then 1 else 0) + occurrences c s'
  end.

(** An entry of a Link header: the URL between angle brackets, then the
    relation between double quotes. *)
Definition link_entry (url rel : string) : string :=
  ("<" ++ url ++ ">; rel=" ++ dquote ++ rel ++ dquote)%string.

(** A Link header: the entries, separated by a comma and a blank. *)
Fixpoint link_header (links : list (string * string)) : string :=
  match links with
  | [] => ""
  | (url, rel) :: rest =>
      match rest with
      | [] => link_entry url rel
      | _ :: _ => (link_entry url rel ++ ", " ++ link_header rest)%string
      end
  end.

(** A link whose entry [_extractPagination] reads back: no line terminator
    and no comma in the URL and the relation, and no double quote in the
    relation, which is not the key [__proto__]. *)
Definition plain_link (link : string * string) : Prop :=
  no_line_terminator link.1 /\ no_line_terminator link.2
  /\ occurrences "," link.1 = 0%nat /\ occurrences "," link.2 = 0%nat
  /\ occurrences quote link.2 = 0%nat
  /\ link.2 <> "__proto__".

(** The object the loop of [_extractPagination] builds from links, a later
    link replacing an earlier one of the same relation. *)
Definition links_map (links : list (string * string)) : gmap string string :=
  foldl (fun pagination link => <[link.2 := link.1]> pagination) ∅ links.

(** ** Typing in the search box *)




(** A rate-limited answer with a plain text body. *)
Definition example_rate_limited_text : Response :=
  mkResponse 403
    (<["x-ratelimit-remaining" := "0"]> {["content-type" := "text/plain"]})
    "Rate Limit Exceeded" None.

(** A page whose second entry is [null]. *)
Definition example_broken_page : Response :=
  mkResponse 200 ∅ "" (Some (JArr [example_record 3 2; JNull; example_record 1 1])).

(** * Proofs *)

(** ** Numbers *)

Lemma Qle_bool_false (x y : Q) : Qle_bool x y = false <-> (y < x)%Q.
Proof.
  split; intros H.
  - apply Qnot_le_lt. intros Hle. apply Qle_bool_iff in Hle. congruence.
  - destruct (Qle_bool x y) eqn:E; [|done].
    apply Qle_bool_iff in E. lra.
Qed.

Lemma Qeq_bool_false (x y : Q) : Qeq_bool x y = false <-> ~ (x == y)%Q.
Proof.
  split; intros H.
  - intros Heq. apply Qeq_bool_iff in Heq. congruence.
  - destruct (Qeq_bool x y) eqn:E; [|done].
    apply Qeq_bool_iff in E. done.
Qed.

(** Turns the boolean comparisons of rationals in the context and in the
    goal into propositions and calls [lra]. *)
Ltac qbool :=
  repeat match goal with
    | H : Qle_bool _ _ = true |- _ => apply Qle_bool_iff in H
    | H : Qle_bool _ _ = false |- _ => apply Qle_bool_false in H
    | H : Qeq_bool _ _ = true |- _ => apply Qeq_bool_iff in H
    | H : Qeq_bool _ _ = false |- _ => apply Qeq_bool_false in H
    | |- Qle_bool _ _ = true => apply Qle_bool_iff
    | |- Qle_bool _ _ = false => apply Qle_bool_false
    | |- Qeq_bool _ _ = true => apply Qeq_bool_iff
    | |- Qeq_bool _ _ = false => apply Qeq_bool_false
    end;
  try lra.

(** Case analysis on every number in sight. *)
Ltac jsnum_cases :=
  repeat match goal with
    | x : jsnum |- _ => destruct x
    end;
  simpl in *; try done; qbool.

Lemma js_le_refl (a : jsnum) : js_is_nan a = false -> js_le a a = true.
Proof. intros. jsnum_cases. Qed.

Lemma js_le_trans (a b c : jsnum) :
  js_le a b = true -> js_le b c = true -> js_le a c = true.
Proof. intros. jsnum_cases. Qed.

Lemma js_le_total (a b : jsnum) :
  js_is_nan a = false -> js_is_nan b = false -> js_le a b = false -> js_le b a = true.
Proof. intros. jsnum_cases. Qed.

Lemma js_strict_eq_refl (a : jsnum) : js_is_nan a = false -> js_strict_eq a a = true.
Proof. intros. jsnum_cases. Qed.

Lemma js_strict_eq_le (a b : jsnum) : js_strict_eq a b = true -> js_le a b = true.
Proof. intros. jsnum_cases. Qed.

Lemma js_strict_eq_ge (a b : jsnum) : js_strict_eq a b = true -> js_le b a = true.
Proof. intros. jsnum_cases. Qed.

Lemma js_le_antisym (a b : jsnum) :
  js_le a b = true -> js_le b a = true -> js_strict_eq a b = true.
Proof. intros. jsnum_cases. Qed.


(** [Math.min] of numbers without NaN is one of them and below all. *)
Lemma Math_min_spec (l : list jsnum) :
  l <> [] -> no_nan l ->
  Math_min l ∈ l /\ Forall (fun x => js_le (Math_min l) x = true) l.
Proof.
  induction l as [|a l IH]; [done|]. intros _ Hnan.
  apply Forall_cons in Hnan as [Ha Hl].
  destruct l as [|b l].
  - simpl. unfold js_min2. rewrite Ha. simpl.
    assert (js_le a PosInf = true) as -> by (destruct a; done).
    split; [apply list_elem_of_here|]. constructor; [by apply js_le_refl | constructor].
  - destruct (IH ltac:(done) Hl) as [Hin Hle].
    assert (js_is_nan (Math_min (b :: l)) = false) as Hm.
    { rewrite Forall_forall in Hl. by apply Hl. }
    change (Math_min (a :: b :: l)) with (js_min2 a (Math_min (b :: l))).
    set (m := Math_min (b :: l)) in *. clearbody m.
    unfold js_min2. rewrite Ha, Hm. simpl.
    destruct (js_le a m) eqn:E.
    + split; [apply list_elem_of_here|]. constructor; [by apply js_le_refl|].
      eapply Forall_impl; [exact Hle|]. intros x Hx. by eapply js_le_trans.
    + split; [by apply list_elem_of_further|]. constructor; [|done].
      by apply js_le_total.
Qed.

Lemma indexOf_spec (m : jsnum) (l : list jsnum) :
  m ∈ l -> js_is_nan m = false ->
  exists i x, indexOf m l = Some i /\ l !! i = Some x /\ js_strict_eq x m = true
    /\ forall j y, (j < i)%nat -> l !! j = Some y -> js_strict_eq y m = false.
Proof.
  intros Hin Hm. induction l as [|a l IH]; [by apply elem_of_nil in Hin|].
  simpl. destruct (js_strict_eq a m) eqn:E.
  - exists 0%nat, a. repeat split; try done. intros; lia.
  - apply elem_of_cons in Hin as [->|Hin].
    { rewrite js_strict_eq_refl in E; done. }
    destruct (IH Hin) as (i & x & Hi & Hx & Hxm & Hlow).
    exists (S i), x. rewrite Hi. repeat split; try done.
    intros [|j] y Hj Hy; simpl in Hy; [congruence|].
    apply (Hlow j); [lia|done].
Qed.

(** ** The balancing step *)

(** With at least one column and no NaN among the heights, the photo goes
    to the first column of least height. *)
Lemma addPhotoToColumns_step (p : photo) (this : service) :
  _columnHeights this <> [] ->
  no_nan (_columnHeights this) ->
  length (columns this) = length (_columnHeights this) ->
  exists i,
    least_loaded i (_columnHeights this)
    /\ _addPhotoToColumns p this = (Ok tt, place p i this).
Proof.
  intros Hne Hnan Hlen.
  destruct (Math_min_spec _ Hne Hnan) as [Hin Hmin].
  assert (js_is_nan (Math_min (_columnHeights this)) = false) as Hm.
  { unfold no_nan in Hnan. rewrite Forall_forall in Hnan. by apply Hnan. }
  destruct (indexOf_spec _ _ Hin Hm) as (i & h & Hi & Hh & Heq & Hlow).
  rewrite Forall_forall in Hmin.
  exists i. split; [exists h; split; [done|]; split|].
  - intros j hj Hj. apply js_le_trans with (Math_min (_columnHeights this)).
    + by apply js_strict_eq_le.
    + apply Hmin. by eapply list_elem_of_lookup_2.
  - intros j hj Hlt Hj.
    destruct (js_le hj h) eqn:E; [|done].
    rewrite <- (Hlow j hj Hlt Hj). symmetry.
    apply js_le_antisym.
    + apply js_le_trans with h; [done|]. by apply js_strict_eq_le.
    + apply Hmin. by eapply list_elem_of_lookup_2.
  - unfold _addPhotoToColumns, mbind, M_bind, get, modify, throw. simpl.
    rewrite Hi. simpl.
    destruct (columns this !! i) eqn:Hc; [done|].
    apply lookup_ge_None in Hc. apply lookup_lt_Some in Hh. lia.
Qed.

Lemma finite_no_nan (hs : list jsnum) :
  Forall (fun h => finite h = true) hs -> no_nan hs.
Proof. intros H. eapply Forall_impl; [exact H|]. by intros []. Qed.

Lemma finite_contribution (p : photo) :
  finite (ratio p) = true -> exists c, contribution p = Fin c.
Proof. unfold contribution. destruct (ratio p); try done. simpl. eauto. Qed.

Lemma place_finite_layout (p : photo) (i : nat) (this : service) :
  finite (ratio p) = true -> finite_layout this -> finite_layout (place p i this).
Proof.
  intros Hp (Hne & Hfin & Hlen). destruct (finite_contribution p Hp) as [c Hc].
  unfold finite_layout, place. simpl. rewrite !length_alter. repeat split; [| |done].
  - intros E. apply (f_equal length) in E. rewrite length_alter in E.
    destruct (_columnHeights this); done.
  - rewrite Forall_lookup in Hfin |- *. intros j x Hj.
    destruct (decide (i = j)) as [<-|Hij].
    + rewrite list_lookup_alter_eq in Hj.
      destruct (_columnHeights this !! i) as [h|] eqn:Hh; simplify_eq/=.
      apply Hfin in Hh. rewrite Hc. by destruct h.
    + rewrite list_lookup_alter_ne in Hj by done. by eapply Hfin.
Qed.



(** ** The spread of the heights *)





Lemma positive_contribution (p : photo) :
  positive (ratio p) = true -> exists c, contribution p = Fin c /\ (0 < c)%Q.
Proof.
  unfold contribution. destruct (ratio p) as [| |q|]; try done. simpl.
  intros Hq. exists (300 * q)%Q. split; [done|].
  apply negb_true_iff in Hq. qbool.
Qed.



(** ** Every photo in one column *)

Lemma photo_record_finite (j : json) :
  photo_record j = true -> finite (record_ratio j) = true.
Proof.
  destruct j as [| | | | |props]; try done. simpl.
  destruct (get_prop "height" props) as [[| |[| |h|]| | |]|]; try done.
  destruct (get_prop "width" props) as [[| |[| |w|]| | |]|]; try done.
  simpl. intros Hw. apply negb_true_iff in Hw. by rewrite Hw.
Qed.

Lemma addPhoto_record (coerce : json -> result jsnum) (j : json) (this : service) :
  photo_record j = true ->
  _addPhoto coerce j this
  = _addPhotoToColumns (photo_of j) (set_photos (photos this ++ [photo_of j]) this).
Proof.
  destruct j as [| | | | |props]; try done.
  unfold photo_of, _addPhoto, mbind, M_bind, lift, modify, ret. simpl.
  destruct (get_prop "height" props) as [[| |[| |h|]| | |]|]; try done.
  destruct (get_prop "width" props) as [[| |[| |w|]| | |]|]; try done.
Qed.

Lemma concat_alter_snoc {A : Type} (x : A) (i : nat) (l : list (list A)) :
  (i < length l)%nat ->
  concat (alter (fun col => col ++ [x]) i l) ≡ₚ concat l ++ [x].
Proof.
  revert i. induction l as [|a l IH]; intros i Hi; simpl in Hi; [lia|].
  destruct i as [|i]; simpl.
  - rewrite <- !app_assoc. apply Permutation_app_head. apply Permutation_app_comm.
  - rewrite <- app_assoc. apply Permutation_app_head. apply IH. lia.
Qed.

Lemma least_loaded_lt (i : nat) (hs : list jsnum) :
  least_loaded i hs -> (i < length hs)%nat.
Proof. intros (h & Hh & _). by eapply lookup_lt_Some. Qed.



Lemma forEach_addPhoto_records (coerce : json -> result jsnum)
    (items : list json) (this : service) :
  finite_layout this ->
  concat (columns this) ≡ₚ photos this ->
  Forall (fun j => photo_record j = true) items ->
  exists this',
    forEach items (_addPhoto coerce) this = (Ok tt, this')
    /\ added_run items this this'
    /\ finite_layout this'
    /\ photos this' = photos this ++ (photo_of <$> items)
    /\ concat (columns this') ≡ₚ photos this'.
Proof.
  revert this. induction items as [|j items IH]; intros this Hlay Hperm Hitems.
  - exists this. rewrite app_nil_r. repeat split; try done; [constructor|apply Hlay..].
  - apply Forall_cons in Hitems as [Hj Hitems].
    set (this1 := set_photos (photos this ++ [photo_of j]) this).
    assert (finite_layout this1) as Hlay1 by done.
    destruct Hlay as (Hne & Hfin & Hlen).
    destruct (addPhotoToColumns_step (photo_of j) this1 Hne (finite_no_nan _ Hfin) Hlen)
      as (i & Hleast & Hstep).
    destruct (IH (place (photo_of j) i this1)) as (this' & Hrun & Hadded & Hlay' & Hph & Hperm').
    + apply place_finite_layout; [|done]. by apply photo_record_finite.
    + simpl. rewrite concat_alter_snoc.
      * by rewrite Hperm.
      * rewrite Hlen. by apply least_loaded_lt.
    + done.
    + exists this'. split; [|split; [|split; [|split]]]; try done.
      * simpl. unfold mbind, M_bind.
        rewrite (addPhoto_record coerce j this Hj). fold this1. by rewrite Hstep.
      * by econstructor.
      * rewrite Hph. simpl. by rewrite <- app_assoc.
Qed.




(** ** Redistribution *)

Lemma column_height_snoc (col : list photo) (p : photo) :
  column_height (col ++ [p]) = js_add (column_height col) (contribution p).
Proof. unfold column_height. by rewrite foldl_app. Qed.

Lemma least_loaded_unique (i j : nat) (hs : list jsnum) :
  least_loaded i hs -> least_loaded j hs -> i = j.
Proof.
  intros (h & Hh & Hmin & Hlow) (h' & Hh' & Hmin' & Hlow').
  destruct (Nat.lt_total i j) as [Hlt|[->|Hlt]]; [|done|].
  - pose proof (Hlow' i h Hlt Hh) as E. rewrite (Hmin j h' Hh') in E. done.
  - pose proof (Hlow j h' Hlt Hh') as E. rewrite (Hmin' i h Hh) in E. done.
Qed.





Lemma resetColumns_unfold (this : service) :
  _resetColumns this
  = forEach (photos this) _addPhotoToColumns
      (set_columnHeights (replicate (columnCount this) (Fin 0))
         (set_columns (replicate (columnCount this) []) this)).
Proof. unfold _resetColumns, mbind, M_bind, get, modify. simpl. by destruct (photos this). Qed.





(** ** The status check *)

Lemma checkStatus_eq (r : Response) (this : service) :
  _checkStatus r this
  = if ok_status r then (Ok r, this)
    else match responseTextPromise r with
         | Ok text =>
             (Throw (HttpError (resolve_errorText r text) r),
              set_error (resolve_errorText r text) this)
         | Throw e => (Throw e, this)
         end.
Proof.
  unfold _checkStatus. destruct (ok_status r); [done|].
  unfold mbind, M_bind, lift. by destruct (responseTextPromise r).
Qed.

Lemma js_or_truthy (a : option json) (b : json) :
  truthy b = true -> truthy (js_or a b) = true.
Proof. intros Hb. destruct a as [v|]; simpl; [|done]. by destruct (truthy v) eqn:E. Qed.

Lemma resolve_errorText_truthy (r : Response) (text : option json) :
  truthy (resolve_errorText r text) = true.
Proof. unfold resolve_errorText. by do 2 apply js_or_truthy. Qed.

Lemma resolve_errorText_rate_limit (r : Response) (text : option json) :
  status r = 403%Z ->
  headers r !! "x-ratelimit-remaining" = Some "0" ->
  resolve_errorText r text = JStr RATE_LIMIT_MESSAGE.
Proof.
  intros Hs Hh. unfold resolve_errorText, header_is.
  rewrite Hs, bool_decide_eq_true_2 by done. done.
Qed.

(** ** Requests *)

Lemma makeRequest_eq (coerce : json -> result jsnum) (net : request -> fetched)
    (url : option string) (this : service) :
  _makeRequest coerce net url this
  = _makeRequest_settle coerce (net (request_for url this)) (prepared url this).
Proof. done. Qed.

(** The final [catch] swallows every rejection: the promise of
    [_makeRequest] is fulfilled, and after a rejection the error holds a
    text. *)
Lemma makeRequest_settle_fulfils (coerce : json -> result jsnum)
    (answer : fetched) (this : service) :
  exists this',
    _makeRequest_settle coerce answer this = (Ok tt, this')
    /\ match _makeRequest_then coerce answer this with
       | (Ok _, this1) => this' = this1
       | (Throw _, this1) =>
           truthy (error this') = true
           /\ this' = set_error (error this') this1
           /\ (truthy (error this1) = false -> error this' = JStr CONNECTION_MESSAGE)
           /\ (truthy (error this1) = true -> error this' = error this1)
       end.
Proof.
  unfold _makeRequest_settle, catch.
  destruct (_makeRequest_then coerce answer this) as [[[]|e] this1].
  - by exists this1.
  - unfold connection_fallback, mbind, M_bind, get, modify, ret.
    destruct (truthy (error this1)) eqn:E; simpl.
    + exists this1. repeat split; try done. by destruct this1.
    + eexists. repeat split; done.
Qed.

Lemma reset_eq (this : service) : _reset this = (Ok tt, cleared this).
Proof. done. Qed.

Lemma run_task_makeRequest (coerce : json -> result jsnum) (net : request -> fetched)
    (url : option string) (this : service) :
  exists this',
    _makeRequest coerce net url this = (Ok tt, this')
    /\ run_task (_makeRequest coerce net url) this = (Ok (Fulfilled None), this').
Proof.
  rewrite makeRequest_eq.
  destruct (makeRequest_settle_fulfils coerce (net (request_for url this)) (prepared url this))
    as (this' & Hrun & _).
  exists this'. split; [done|].
  unfold run_task, settle, mbind, M_bind. rewrite makeRequest_eq. by rewrite Hrun.
Qed.


Lemma loadNextPage_task_eq (coerce : json -> result jsnum) (net : request -> fetched)
    (this : service) :
  _loadNextPage coerce net this
  = perform_loading (_makeRequest coerce net (pagination_next this)) this.
Proof.
  unfold _loadNextPage, perform_loading, mbind, M_bind, get.
  by destruct (_loadingTasks_isRunning this).
Qed.

(** ** Exhausted pages *)

(** C7. With photos in the list, no search running and no [next] entry in
    the pagination state, [loadNextPage] returns a rejected promise, sends
    no request and leaves the service as it was. *)
Theorem loadNextPage_exhausted (coerce : json -> result jsnum) (net : request -> fetched)
    (this : service) :
  photos this <> [] ->
  _search_isRunning this = false ->
  _pagination this !! "next" = None ->
  loadNextPage coerce net this = (Ok (Rejected RejectedUndefined), this).
Proof.
  intros Hph Hsearch Hnext.
  unfold loadNextPage, mbind, M_bind, get, pagination_next. rewrite Hsearch.
  destruct (photos this); [done|]. by rewrite Hnext.
Qed.

Lemma loadNextPage_exhausted_witness :
  let this := (loadNew example_coerce (fun _ => Responded example_page) (init "id")).2 in
  loadNextPage example_coerce (fun _ => NetworkFailure) this
  = (Ok (Rejected RejectedUndefined), this).
Proof.
  apply loadNextPage_exhausted; [discriminate | reflexivity | reflexivity].
Defined.

(** ** Failures of requests *)



(** ** The test request *)

(** C4, as the code has it. [sendTestRequest] sends one request with the
    credential it is given and touches nothing but the error field: the
    photo list, the columns and their heights, the pagination state and the
    search term stay as they are.  The error stays too when the answer is a
    success, when the network fails and when an error body cannot be read;
    after any other answer it holds the text [_checkStatus] resolved. *)
Theorem sendTestRequest_frame (net : request -> fetched) (testApplicationId : string)
    (this : service) :
  let req := mkRequest test_url (request_headers testApplicationId) in
  exists o this',
    sendTestRequest net testApplicationId this = (Ok o, this')
    /\ this' = set_error (error this') (set_sent (sent this ++ [req]) this)
    /\ match net req with
       | NetworkFailure => o = Rejected FetchError /\ error this' = error this
       | Responded r =>
           if ok_status r then o = Fulfilled (Some r) /\ error this' = error this
           else match responseTextPromise r with
                | Ok text =>
                    o = Rejected (HttpError (resolve_errorText r text) r)
                    /\ error this' = resolve_errorText r text
                | Throw e => o = Rejected e /\ error this' = error this
                end
       end.
Proof.
  intros req.
  unfold sendTestRequest, settle, mbind, M_bind, fetch_send, modify, ret. simpl.
  fold req. destruct (net req) as [|r]; simpl.
  - eexists _, _. split; [done|]. split; [|done]. by destruct this.
  - rewrite checkStatus_eq. destruct (ok_status r).
    + eexists _, _. split; [done|]. split; [|done]. by destruct this.
    + destruct (responseTextPromise r) as [text|e].
      * eexists _, _. split; [done|]. split; done.
      * eexists _, _. split; [done|]. split; [|done]. by destruct this.
Qed.

(** C4 as stated fails: an answer that is not a success changes the error
    field of the service. *)
Lemma sendTestRequest_sets_error :
  let this := init "id" in
  let this' := (sendTestRequest (fun _ => Responded example_unauthorized) "key" this).2 in
  error this = JStr ""
  /\ error this' = JStr "OAuth error: The access token is invalid".
Proof. split; reflexivity. Qed.

(** ** The rate limit *)

(** X20. When the body of a rate-limited answer, status 403 with no quota
    left, can be read, the request records the fixed message, whatever the
    body says, and touches nothing else. *)
Lemma rate_limit_message_recorded (coerce : json -> result jsnum)
    (net : request -> fetched) (url : option string) (this : service)
    (r : Response) (text : option json) :
  net (request_for url this) = Responded r ->
  status r = 403%Z ->
  headers r !! "x-ratelimit-remaining" = Some "0" ->
  responseTextPromise r = Ok text ->
  _makeRequest coerce net url this
  = (Ok tt, set_error (JStr RATE_LIMIT_MESSAGE) (prepared url this)).
Proof.
  intros Hnet Hs Hh Htext. rewrite makeRequest_eq, Hnet.
  unfold _makeRequest_settle, _makeRequest_then, catch, mbind, M_bind. simpl.
  rewrite checkStatus_eq. unfold ok_status. rewrite Hs, Htext. simpl.
  by rewrite (resolve_errorText_rate_limit r text Hs Hh).
Qed.

(** C5 fails on the code: a rate-limited answer, status 403 with no quota
    left, whose body is announced as JSON and holds no [errors], is recorded
    as a connection problem. *)
Theorem rate_limit_masked_by_unreadable_body :
  status example_rate_limited = 403%Z
  /\ headers example_rate_limited !! "x-ratelimit-remaining" = Some "0"
  /\ error (_makeRequest example_coerce (fun _ => Responded example_rate_limited)
              (Some load_url) (init "id")).2
     = JStr CONNECTION_MESSAGE.
Proof. repeat split; reflexivity. Qed.

(** ** The regular expression of the Link header *)

Lemma append_cons (x : ascii) (a b : string) :
  (String x a ++ b = String x (a ++ b))%string.
Proof. done. Qed.

Lemma append_assoc (a b c : string) : ((a ++ b) ++ c = a ++ (b ++ c))%string.
Proof. induction a as [|x a IH]; [done|]. rewrite !append_cons. by f_equal. Qed.

Lemma strip_prefix_Some (text s s' : string) :
  strip_prefix text s = Some s' <-> s = (text ++ s')%string.
Proof.
  revert s. induction text as [|a text IH]; intros s; simpl.
  - split; [by intros [= ->] | by intros ->].
  - rewrite append_cons. destruct s as [|b s]; [done|].
    destruct (Ascii.eqb a b) eqn:E.
    + apply Ascii.eqb_eq in E as ->. rewrite IH. split; [by intros ->|by intros [= ->]].
    + apply Ascii.eqb_neq in E. split; [done|]. intros [= <- _]. done.
Qed.

Lemma no_line_terminator_cons (c : ascii) (s : string) :
  no_line_terminator (String c s) <-> is_line_terminator c = false /\ no_line_terminator s.
Proof.
  unfold no_line_terminator. simpl.
  apply (Forall_cons (fun c => is_line_terminator c = false)).
Qed.

Lemma no_line_terminator_empty : no_line_terminator "".
Proof. constructor. Qed.

Section Greedy.

Variable rest : string -> option (list string).

(** What the greedy group returns is a split of the text: the group, free
    of line terminators, then a text the rest matches. *)
Lemma greedy_sound (s : string) (l : list string) :
  greedy rest s = Some l ->
  exists cap caps s',
    l = cap :: caps /\ s = (cap ++ s')%string
    /\ no_line_terminator cap /\ rest s' = Some caps.
Proof.
  revert l. induction s as [|c s IH]; intros l; simpl.
  - destruct (rest "") as [caps|] eqn:E; [|done]. intros [= <-].
    exists "", caps, "". repeat split; try done. apply no_line_terminator_empty.
  - assert (((fun caps => "" :: caps) <$> rest (String c s)) = Some l ->
            exists cap caps s', l = cap :: caps /\ String c s = (cap ++ s')%string
              /\ no_line_terminator cap /\ rest s' = Some caps) as Hstop.
    { destruct (rest (String c s)) as [caps|] eqn:E; [|done]. intros [= <-].
      exists "", caps, (String c s). repeat split; try done.
      apply no_line_terminator_empty. }
    destruct (is_line_terminator c) eqn:Hc; [done|].
    destruct (greedy rest s) as [[|cap caps]|] eqn:Hg; try done.
    intros [= <-].
    destruct (IH _ eq_refl) as (cap' & caps' & s' & [= -> ->] & -> & Hcap & Hrest).
    exists (String c cap'), caps', s'. repeat split; try done.
    by apply no_line_terminator_cons.
Qed.

Lemma greedy_stop (s : string) (caps : list string) :
  rest s = Some caps -> is_Some (greedy rest s).
Proof.
  intros Hrest. destruct s as [|c s]; simpl; rewrite Hrest; [done|].
  destruct (is_line_terminator c); [done|].
  by destruct (greedy rest s) as [[|? ?]|].
Qed.

(** Whenever some split works, the greedy group finds one. *)
Lemma greedy_complete (cap s : string) (caps : list string) :
  no_line_terminator cap -> rest s = Some caps ->
  is_Some (greedy rest (cap ++ s)%string).
Proof.
  intros Hcap Hrest. induction cap as [|c cap IH].
  - by eapply greedy_stop.
  - rewrite append_cons. simpl.
    apply no_line_terminator_cons in Hcap as [Hc Hcap]. rewrite Hc.
    destruct (IH Hcap) as [l Hl]. rewrite Hl.
    destruct (greedy_sound _ _ Hl) as (cap' & caps' & _ & -> & _). done.
Qed.

End Greedy.

Lemma match_pieces_sound (pieces : list re_piece) (s : string) (caps : list string) :
  match_pieces pieces s = Some caps -> pieces_match pieces s caps.
Proof.
  revert s caps. induction pieces as [|[text|] rest IH]; intros s caps; simpl.
  - intros [= <-]. constructor.
  - destruct (strip_prefix text s) as [s'|] eqn:E; [|done].
    apply strip_prefix_Some in E as ->. intros H. constructor. by apply IH.
  - intros (cap & caps' & s' & -> & -> & Hcap & Hrest)%greedy_sound.
    constructor; [done|]. by apply IH.
Qed.

Lemma match_pieces_complete (pieces : list re_piece) (s : string) (caps : list string) :
  pieces_match pieces s caps -> is_Some (match_pieces pieces s).
Proof.
  induction 1 as [s|text rest s caps _ IH|rest cap s caps Hcap _ IH]; simpl.
  - done.
  - by rewrite (proj2 (strip_prefix_Some text (text ++ s) s) eq_refl).
  - destruct IH as [caps' Hrest]. by eapply greedy_complete.
Qed.

Lemma regex_exec_sound (pieces : list re_piece) (s : string) (caps : list string) :
  regex_exec pieces s = Some caps ->
  exists before after, s = (before ++ after)%string /\ pieces_match pieces after caps.
Proof.
  induction s as [|c s IH]; simpl.
  - destruct (match_pieces pieces "") as [l|] eqn:E; [|done]. intros [= <-].
    exists "", "". split; [done|]. by apply match_pieces_sound.
  - destruct (match_pieces pieces (String c s)) as [l|] eqn:E.
    + intros [= <-]. exists "", (String c s). split; [done|]. by apply match_pieces_sound.
    + intros (before & after & -> & Hm)%IH.
      exists (String c before), after. by rewrite append_cons.
Qed.

Lemma regex_exec_complete (pieces : list re_piece) (before after : string)
    (caps : list string) :
  pieces_match pieces after caps -> is_Some (regex_exec pieces (before ++ after)%string).
Proof.
  intros Hm%match_pieces_complete. induction before as [|c before IH].
  - change ("" ++ after)%string with after.
    destruct after; simpl; by destruct Hm as [l ->].
  - rewrite append_cons. simpl.
    by destruct (match_pieces pieces (String c (before ++ after))).
Qed.

(** The pieces of the expression match a text exactly when the text reads
    as the pattern says. *)
Lemma linkRegex_match (s : string) (caps : list string) :
  pieces_match linkRegex s caps <->
  exists url rel after,
    s = ("<" ++ url ++ ">; rel=" ++ dquote ++ rel ++ dquote ++ after)%string
    /\ caps = [url; rel] /\ no_line_terminator url /\ no_line_terminator rel.
Proof.
  unfold linkRegex. split.
  - intros H.
    inversion H as [|? ? s1 ? H1|]; subst; clear H.
    inversion H1 as [| |? url s2 caps2 Hurl H2]; subst; clear H1.
    inversion H2 as [|? ? s3 ? H3|]; subst; clear H2.
    inversion H3 as [| |? rel s4 caps4 Hrel H4]; subst; clear H3.
    inversion H4 as [|? ? s5 ? H5|]; subst; clear H4.
    inversion H5; subst; clear H5.
    exists url, rel, s5. by rewrite append_assoc.
  - intros (url & rel & after & -> & -> & Hurl & Hrel).
    constructor. constructor; [done|].
    rewrite <- append_assoc. constructor. constructor; [done|].
    constructor. constructor.
Qed.

(** The search of [exec] fails exactly on the texts that do not match the
    pattern, and a match always holds the two groups. *)
Lemma regex_exec_link_None (entry : string) :
  regex_exec linkRegex entry = None <-> ~ matches_link_pattern entry.
Proof.
  split.
  - intros Hnone (before & url & rel & after & -> & Hurl & Hrel).
    destruct (regex_exec_complete linkRegex before
                ("<" ++ url ++ ">; rel=" ++ dquote ++ rel ++ dquote ++ after) [url; rel])
      as [caps Hcaps]; [|congruence].
    apply linkRegex_match. by exists url, rel, after.
  - intros Hno. destruct (regex_exec linkRegex entry) as [caps|] eqn:E; [|done].
    exfalso. apply Hno.
    apply regex_exec_sound in E as (before & s & -> & Hm).
    apply linkRegex_match in Hm as (url & rel & after & -> & _ & Hurl & Hrel).
    by exists before, url, rel, after.
Qed.

Lemma regex_exec_link_Some (entry : string) (caps : list string) :
  regex_exec linkRegex entry = Some caps -> exists url rel, caps = [url; rel].
Proof.
  intros (before & s & -> & Hm)%regex_exec_sound.
  apply linkRegex_match in Hm as (url & rel & after & _ & -> & _). eauto.
Qed.

(** The header of the specification: one entry, stored under its
    relation with the URL as it stands. *)
Example link_header_next :
  collect_links
    (link_entries
       (Some ("<https://api.example/x?page=2>; rel=" ++ dquote ++ "next" ++ dquote)%string))
    ∅
  = Ok {["next" := "https://api.example/x?page=2"]}.
Proof. reflexivity. Qed.

(** Two entries, the second after the comma and a blank. *)
Example link_header_two_entries :
  collect_links
    (link_entries
       (Some ("<u?page=1>; rel=" ++ dquote ++ "prev" ++ dquote
              ++ ", <u?page=3>; rel=" ++ dquote ++ "next" ++ dquote)%string))
    ∅
  = Ok (<["next" := "u?page=3"]> {["prev" := "u?page=1"]}).
Proof. reflexivity. Qed.

(** ** A malformed Link header *)

Lemma collect_links_malformed (entries : list string) (pagination : gmap string string)
    (entry : string) :
  entry ∈ entries ->
  regex_exec linkRegex entry = None ->
  collect_links entries pagination = Throw TypeError.
Proof.
  intros Hin Hnone. revert pagination.
  induction entries as [|link rest IH]; intros pagination; [by apply elem_of_nil in Hin|].
  simpl. destruct (regex_exec linkRegex link) as [[|u [|r [|x l]]]|] eqn:E; try done.
  apply elem_of_cons in Hin as [->|Hin]; [congruence|]. by apply IH.
Qed.

(** C10. A successful answer whose Link header holds an entry that does
    not match the pattern makes the whole request fail: the pagination
    state stays what it was, no photo of the body is added, and the error
    recorded is the message for a connection problem. *)
Theorem malformed_link_fails_request (coerce : json -> result jsnum)
    (net : request -> fetched) (url : option string) (this : service)
    (r : Response) (entry : string) :
  net (request_for url this) = Responded r ->
  ok_status r = true ->
  entry ∈ link_entries (headers r !! "link") ->
  ~ matches_link_pattern entry ->
  exists this',
    _makeRequest coerce net url this = (Ok tt, this')
    /\ this' = set_error (JStr CONNECTION_MESSAGE) (prepared url this)
    /\ _pagination this' = _pagination this
    /\ photos this' = photos this
    /\ columns this' = columns this
    /\ _columnHeights this' = _columnHeights this
    /\ error this' = JStr CONNECTION_MESSAGE.
Proof.
  intros Hnet Hok Hin Hno%regex_exec_link_None.
  eexists. split; [|by repeat split].
  rewrite makeRequest_eq, Hnet.
  unfold _makeRequest_settle, _makeRequest_then, catch, mbind, M_bind. simpl.
  rewrite checkStatus_eq, Hok.
  unfold _extractPagination, mbind, M_bind, lift.
  by rewrite (collect_links_malformed _ ∅ entry Hin Hno).
Qed.

Lemma malformed_link_fails_request_witness :
  let this := init "id" in
  exists this',
    _makeRequest example_coerce (fun _ => Responded example_bad_link) (Some load_url) this
    = (Ok tt, this')
    /\ this' = set_error (JStr CONNECTION_MESSAGE) (prepared (Some load_url) this)
    /\ _pagination this' = _pagination this
    /\ photos this' = photos this
    /\ columns this' = columns this
    /\ _columnHeights this' = _columnHeights this
    /\ error this' = JStr CONNECTION_MESSAGE.
Proof.
  apply (malformed_link_fails_request example_coerce (fun _ => Responded example_bad_link)
           (Some load_url) (init "id") example_bad_link
           " <https://api.unsplash.com/photos?page=3>").
  - reflexivity.
  - reflexivity.
  - vm_compute. apply list_elem_of_further, list_elem_of_here.
  - apply regex_exec_link_None. reflexivity.
Defined.

(** ** The debounce *)

Lemma call_updateSearch_same (term : string) (w : world) :
  String.eqb term (searchTerm (svc w)) = true -> call_updateSearch term w = w.
Proof. intros H. unfold call_updateSearch. by rewrite H. Qed.

Lemma call_updateSearch_new (term : string) (w : world) :
  String.eqb term (searchTerm (svc w)) = false ->
  String.eqb term "" = false ->
  call_updateSearch term w
  = mkWorld (set_search_isRunning true (cleared (set_searchTerm term (svc w))))
      (clock w) (Some (term, (clock w + DEBOUNCE_MS)%nat)).
Proof. intros H1 H2. unfold call_updateSearch. rewrite H1. simpl. by rewrite H2. Qed.

Lemma elapse_idle (ms : nat) (w : world) :
  debounce w = None -> elapse ms w = mkWorld (svc w) (clock w + ms) None.
Proof. intros H. unfold elapse. by rewrite H. Qed.

Lemma elapse_wait (ms : nat) (w : world) (term : string) (wake : nat) :
  debounce w = Some (term, wake) -> (clock w + ms < wake)%nat ->
  elapse ms w = mkWorld (svc w) (clock w + ms) (Some (term, wake)).
Proof.
  intros H Hlt. unfold elapse. rewrite H.
  apply Nat.leb_gt in Hlt. by rewrite Hlt.
Qed.

Lemma elapse_fire (ms : nat) (w : world) (term : string) (wake : nat) :
  debounce w = Some (term, wake) -> (wake <= clock w + ms)%nat ->
  elapse ms w = mkWorld (prepared (Some (search_url term)) (svc w)) (clock w + ms) None.
Proof.
  intros H Hle. unfold elapse. rewrite H.
  apply Nat.leb_le in Hle. by rewrite Hle.
Qed.

(** C9. [updateSearch] is called with "a", "ab" and "abc", each call less
    than the debounce time after the one before, no search waiting at the
    start; once the debounce time has passed after the last call exactly
    one request has left, the search for "abc", and no search is left
    waiting. *)
Theorem debounce_sends_last_term (w : world) (d1 d2 d3 : nat) :
  debounce w = None ->
  (d1 < DEBOUNCE_MS)%nat ->
  (d2 < DEBOUNCE_MS)%nat ->
  (DEBOUNCE_MS <= d3)%nat ->
  let w' := run [CallUpdateSearch "a"; Elapse d1;
                 CallUpdateSearch "ab"; Elapse d2;
                 CallUpdateSearch "abc"; Elapse d3] w in
  sent (svc w')
  = sent (svc w) ++ [mkRequest (search_url "abc") (request_headers (applicationId (svc w)))]
  /\ debounce w' = None.
Proof.
  intros Hidle H1 H2 H3. unfold run. simpl.
  (* after the first call and the first pause the term is "a" and either no
     search waits or the one for "a" does, not yet due *)
  assert (exists w1, elapse d1 (call_updateSearch "a" w) = w1
            /\ searchTerm (svc w1) = "a"
            /\ sent (svc w1) = sent (svc w)
            /\ applicationId (svc w1) = applicationId (svc w)) as (w1 & -> & Hterm & Hsent & Hid).
  { destruct (String.eqb "a" (searchTerm (svc w))) eqn:E.
    - rewrite (call_updateSearch_same "a" w E), (elapse_idle d1 w Hidle).
      apply String.eqb_eq in E. eexists. split; [reflexivity|]. simpl. by rewrite <- E.
    - rewrite (call_updateSearch_new "a" w E eq_refl).
      erewrite elapse_wait; [|reflexivity|simpl; lia].
      eexists. split; [reflexivity|]. by repeat split. }
  rewrite (call_updateSearch_new "ab" w1); [|by rewrite Hterm|done].
  rewrite (elapse_wait d2 _ "ab" (clock w1 + DEBOUNCE_MS)); [|reflexivity|simpl; lia].
  rewrite (call_updateSearch_new "abc"); [|done..].
  rewrite (elapse_fire d3 _ "abc" (clock w1 + d2 + DEBOUNCE_MS));
    [|reflexivity|simpl; lia].
  simpl. unfold request_for. simpl. by rewrite Hsent, Hid.
Qed.

Lemma debounce_sends_last_term_witness :
  let w := mkWorld (init "id") 0 None in
  let w' := run [CallUpdateSearch "a"; Elapse 100;
                 CallUpdateSearch "ab"; Elapse 599;
                 CallUpdateSearch "abc"; Elapse 600] w in
  sent (svc w')
  = sent (svc w) ++ [mkRequest (search_url "abc") (request_headers (applicationId (svc w)))]
  /\ debounce w' = None.
Proof.
  apply (debounce_sends_last_term (mkWorld (init "id") 0 None) 100 599 600);
    [reflexivity | unfold DEBOUNCE_MS; lia..].
Defined.

(** ** Loading on an empty list *)

Lemma concat_nil_replicate {A : Type} (l : list (list A)) :
  concat l = [] -> l = replicate (length l) [].
Proof.
  induction l as [|a l IH]; [done|]. simpl.
  intros [-> Hl]%app_eq_nil. by rewrite <- IH.
Qed.

(** On a consistent service without photos a reset only empties the
    pagination state. *)
Lemma cleared_empty (this : service) :
  consistent this -> photos this = [] -> cleared this = set_pagination ∅ this.
Proof.
  intros (Hlen & Hsum & Hsub) Hph. rewrite Hph in Hsub.
  apply submseteq_nil_r, concat_nil_replicate in Hsub. rewrite Hlen in Hsub.
  rewrite Hsub, fmap_replicate in Hsum.
  unfold cleared. destruct this. simpl in *. clear Hlen.
  unfold set_columnHeights, set_columns, set_pagination, set_photos. simpl.
  by rewrite Hsum, Hsub, Hph.
Qed.

Lemma connection_fallback_pagination (pg : gmap string string) (s : service) :
  exists s',
    connection_fallback s = (Ok tt, s')
    /\ connection_fallback (set_pagination pg s) = (Ok tt, set_pagination pg s')
    /\ _pagination s' = _pagination s.
Proof.
  unfold connection_fallback, mbind, M_bind, get, modify, ret. simpl.
  destruct (truthy (error s)); eexists; done.
Qed.

(** The chain of a request reads the pagination state nowhere: started
    with another one it ends in the same service when it gets to store the
    links of the answer, and else fails and leaves each pagination state as
    it was. *)
Lemma makeRequest_then_pagination (coerce : json -> result jsnum)
    (answer : fetched) (pg : gmap string string) (s : service) :
  exists res s1 s2,
    _makeRequest_then coerce answer (set_pagination pg s) = (res, s1)
    /\ _makeRequest_then coerce answer s = (res, s2)
    /\ (s1 = s2
        \/ s1 = set_pagination pg s2 /\ _pagination s2 = _pagination s
           /\ exists e, res = Throw e).
Proof.
  unfold _makeRequest_then, mbind, M_bind.
  destruct answer as [|r]; simpl.
  { eexists _, _, _. split; [done|]. split; [done|]. right. eauto. }
  rewrite !checkStatus_eq. destruct (ok_status r).
  2: { destruct (responseTextPromise r) as [text|e];
         (eexists _, _, _; split; [done|]; split; [done|]; right; eauto). }
  unfold _extractPagination, mbind, M_bind, lift, modify, ret.
  destruct (collect_links (link_entries (headers r !! "link")) ∅) as [pag|e].
  2: { eexists _, _, _. split; [done|]. split; [done|]. right. eauto. }
  change (set_pagination pag (set_pagination pg s)) with (set_pagination pag s).
  match goal with
  | |- exists res s1 s2, ?X = _ /\ _ => destruct X as [res s'] eqn:E
  end.
  exists res, s', s'. auto.
Qed.

Lemma makeRequest_settle_pagination (coerce : json -> result jsnum)
    (answer : fetched) (pg : gmap string string) (s : service) :
  exists s1 s2,
    _makeRequest_settle coerce answer (set_pagination pg s) = (Ok tt, s1)
    /\ _makeRequest_settle coerce answer s = (Ok tt, s2)
    /\ (s1 = s2 \/ s1 = set_pagination pg s2 /\ _pagination s2 = _pagination s).
Proof.
  destruct (makeRequest_then_pagination coerce answer pg s)
    as (res & s1 & s2 & H1 & H2 & Hrel).
  unfold _makeRequest_settle, catch. rewrite H1, H2.
  destruct res as [[]|e].
  - exists s1, s2. split; [done|]. split; [done|].
    destruct Hrel as [->|(_ & _ & e & He)]; [by left|done].
  - destruct Hrel as [->|(-> & Hpg & _)].
    + destruct (connection_fallback_pagination pg s2) as (s' & -> & _ & _).
      exists s', s'. auto.
    + destruct (connection_fallback_pagination pg s2) as (s' & -> & -> & Hpg').
      exists (set_pagination pg s'), s'. split; [done|]. split; [done|].
      right. split; [done|]. congruence.
Qed.

Lemma loadNew_task_pagination (coerce : json -> result jsnum) (net : request -> fetched)
    (pg : gmap string string) (s : service) :
  exists o s1 s2,
    _loadNew coerce net (set_pagination pg s) = (Ok o, s1)
    /\ _loadNew coerce net s = (Ok o, s2)
    /\ sent s1 = sent s2
    /\ (s1 = s2 \/ s1 = set_pagination pg s2 /\ _pagination s2 = _pagination s).
Proof.
  unfold _loadNew, perform_loading, mbind, M_bind, get. simpl.
  destruct (_loadingTasks_isRunning s).
  { exists Dropped, (set_pagination pg s), s. repeat split; try done. by right. }
  unfold run_task, settle, mbind, M_bind. rewrite !makeRequest_eq.
  change (prepared (Some load_url) (set_pagination pg s))
    with (set_pagination pg (prepared (Some load_url) s)).
  change (request_for (Some load_url) (set_pagination pg s))
    with (request_for (Some load_url) s).
  destruct (makeRequest_settle_pagination coerce (net (request_for (Some load_url) s)) pg
              (prepared (Some load_url) s)) as (s1 & s2 & -> & -> & Hrel).
  exists (Fulfilled None), s1, s2. repeat split; try done.
  by destruct Hrel as [->|[-> _]].
Qed.

(** When the answer is a success whose links can be read, the chain
    overwrites the pagination state it started with. *)
Lemma loadNew_task_stores_links (coerce : json -> result jsnum) (net : request -> fetched)
    (pg : gmap string string) (s : service) (r : Response) (links : gmap string string) :
  _loadingTasks_isRunning s = false ->
  net (request_for (Some load_url) s) = Responded r ->
  ok_status r = true ->
  collect_links (link_entries (headers r !! "link")) ∅ = Ok links ->
  _loadNew coerce net (set_pagination pg s) = _loadNew coerce net s.
Proof.
  intros Hbusy Hnet Hok Hlinks.
  unfold _loadNew, perform_loading, mbind, M_bind, get. simpl. rewrite Hbusy.
  unfold run_task, settle, mbind, M_bind. rewrite !makeRequest_eq.
  change (request_for (Some load_url) (set_pagination pg s))
    with (request_for (Some load_url) s).
  rewrite Hnet.
  unfold _makeRequest_settle, _makeRequest_then, catch, mbind, M_bind. simpl.
  rewrite !checkStatus_eq, Hok.
  unfold _extractPagination, mbind, M_bind, lift, modify, ret.
  by rewrite Hlinks.
Qed.

(** C6, as the code has it. On a consistent service with an empty photo
    list and no search running, [loadNextPage] sends the request [loadNew]
    sends and returns what it returns; the two services agree on every
    field but, possibly, the pagination state.  They agree on it as well
    when it was empty before, and when the request is made and gets to
    store the links of the answer; when the request is dropped or fails
    before that, [loadNew] leaves it empty and [loadNextPage] leaves it as
    it was. *)
Theorem loadNextPage_on_empty_list (coerce : json -> result jsnum)
    (net : request -> fetched) (this : service) :
  photos this = [] ->
  _search_isRunning this = false ->
  consistent this ->
  exists o this1 this2,
    loadNew coerce net this = (Ok o, this1)
    /\ loadNextPage coerce net this = (Ok o, this2)
    /\ sent this1 = sent this2
    /\ this1 = set_pagination (_pagination this1) this2
    /\ (this1 = this2
        \/ _pagination this1 = ∅ /\ _pagination this2 = _pagination this)
    /\ (_pagination this = ∅ -> this1 = this2)
    /\ (forall r links,
          _loadingTasks_isRunning this = false ->
          net (request_for (Some load_url) this) = Responded r ->
          ok_status r = true ->
          collect_links (link_entries (headers r !! "link")) ∅ = Ok links ->
          this1 = this2).
Proof.
  intros Hph Hsearch Hcons.
  unfold loadNew, loadNextPage, mbind, M_bind, get.
  rewrite reset_eq, Hsearch, Hph, (cleared_empty this Hcons Hph).
  destruct (loadNew_task_pagination coerce net ∅ this)
    as (o & s1 & s2 & H1 & H2 & Hsent & Hrel).
  rewrite H1, H2.
  exists o, s1, s2. repeat split; try done.
  - destruct Hrel as [->|[-> _]]; [by destruct s2|done].
  - destruct Hrel as [->|[-> Hpg]]; [by left|by right].
  - intros Hempty. destruct Hrel as [->|[-> Hpg]]; [done|].
    rewrite <- Hempty, <- Hpg. by destruct s2.
  - intros r links Hbusy Hnet Hok Hlinks.
    rewrite (loadNew_task_stores_links coerce net ∅ this r links Hbusy Hnet Hok Hlinks) in H1.
    congruence.
Qed.

Lemma loadNextPage_on_empty_list_witness :
  let this := (loadNew example_coerce (fun _ => Responded example_empty_page) (init "id")).2 in
  exists o this1 this2,
    loadNew example_coerce (fun _ => Responded example_page) this = (Ok o, this1)
    /\ loadNextPage example_coerce (fun _ => Responded example_page) this = (Ok o, this2)
    /\ sent this1 = sent this2
    /\ this1 = set_pagination (_pagination this1) this2
    /\ (this1 = this2
        \/ _pagination this1 = ∅ /\ _pagination this2 = _pagination this)
    /\ (_pagination this = ∅ -> this1 = this2)
    /\ (forall r links,
          _loadingTasks_isRunning this = false ->
          (fun _ => Responded example_page) (request_for (Some load_url) this) = Responded r ->
          ok_status r = true ->
          collect_links (link_entries (headers r !! "link")) ∅ = Ok links ->
          this1 = this2).
Proof.
  apply loadNextPage_on_empty_list; [reflexivity | reflexivity |].
  split; [reflexivity|]. split; reflexivity.
Defined.

(** C6 as stated fails: after an empty page that announced a next one,
    a request that fails leaves the pagination state empty under
    [loadNew] and untouched under [loadNextPage]. *)
Lemma loadNextPage_keeps_pagination :
  let this := (loadNew example_coerce (fun _ => Responded example_empty_page) (init "id")).2 in
  let this1 := (loadNew example_coerce (fun _ => NetworkFailure) this).2 in
  let this2 := (loadNextPage example_coerce (fun _ => NetworkFailure) this).2 in
  photos this = [] /\ _search_isRunning this = false
  /\ _pagination this1 !! "next" = None
  /\ _pagination this2 !! "next" = Some "https://api.unsplash.com/photos?page=2".
Proof. repeat split; reflexivity. Qed.

(** ** The layout stays consistent *)

Lemma indexOf_lt (m : jsnum) (l : list jsnum) (i : nat) :
  indexOf m l = Some i -> (i < length l)%nat.
Proof.
  revert i. induction l as [|a l IH]; intros i; simpl; [done|].
  destruct (js_strict_eq a m); [intros [= <-]; lia|].
  destruct (indexOf m l) as [j|]; [|done]. intros [= <-].
  specialize (IH j eq_refl). lia.
Qed.

(** One step of the balancing rule on a layout whose heights are the sums
    of the columns: it places the photo in a column, or throws and changes
    nothing. *)
Lemma addPhotoToColumns_cases (p : photo) (this : service) :
  _columnHeights this = column_height <$> columns this ->
  (exists i, (i < length (columns this))%nat
             /\ _addPhotoToColumns p this = (Ok tt, place p i this))
  \/ _addPhotoToColumns p this = (Throw TypeError, this).
Proof.
  intros Hsum. unfold _addPhotoToColumns, mbind, M_bind, get, modify, throw. simpl.
  destruct (indexOf (Math_min (_columnHeights this)) (_columnHeights this)) as [i|] eqn:Hi;
    [|by right].
  apply indexOf_lt in Hi. rewrite Hsum, length_fmap in Hi.
  destruct (lookup_lt_is_Some_2 _ _ Hi) as [col Hcol]. rewrite Hcol.
  left. by exists i.
Qed.

Lemma place_sums (p : photo) (i : nat) (this : service) :
  _columnHeights this = column_height <$> columns this ->
  _columnHeights (place p i this) = column_height <$> columns (place p i this).
Proof.
  intros Hsum. simpl. rewrite Hsum. symmetry.
  apply list_fmap_alter, Forall_forall. intros col _. apply column_height_snoc.
Qed.

(** The loop of the balancing rule over photos that the flat list holds
    beside those already in the columns. *)
Lemma forEach_add_consistent (ps : list photo) (this : service) :
  length (columns this) = columnCount this ->
  _columnHeights this = column_height <$> columns this ->
  concat (columns this) ++ ps ⊆+ photos this ->
  consistent (forEach ps _addPhotoToColumns this).2.
Proof.
  revert this. induction ps as [|p ps IH]; intros this Hlen Hsum Hsub.
  - rewrite app_nil_r in Hsub. by repeat split.
  - simpl. unfold mbind, M_bind.
    destruct (addPhotoToColumns_cases p this Hsum) as [(i & Hi & ->)| ->].
    + apply IH.
      * simpl. by rewrite length_alter.
      * by apply place_sums.
      * simpl. rewrite concat_alter_snoc by done.
        by rewrite <- app_assoc.
    + simpl. repeat split; try done.
      etrans; [|exact Hsub]. by apply submseteq_inserts_r.
Qed.

Lemma resetColumns_consistent (this : service) : consistent (_resetColumns this).2.
Proof.
  rewrite resetColumns_unfold. apply forEach_add_consistent; simpl.
  - by rewrite length_replicate.
  - by rewrite fmap_replicate.
  - assert (concat (replicate (columnCount this) (@nil photo)) = []) as ->; [|done].
    induction (columnCount this); [done|]. simpl. done.
Qed.

Lemma preserves_ret {A : Type} (a : A) : preserves (ret a).
Proof. by intros this. Qed.

Lemma preserves_throw {A : Type} (e : exn) : preserves (@throw A e).
Proof. by intros this. Qed.

Lemma preserves_lift {A : Type} (r : result A) : preserves (lift r).
Proof. by intros this. Qed.

Lemma preserves_get {A : Type} (field : service -> A) : preserves (get field).
Proof. by intros this. Qed.

Lemma preserves_bind {A B : Type} (m : M A) (f : A -> M B) :
  preserves m -> (forall a, preserves (f a)) -> preserves (m ≫= f).
Proof.
  intros Hm Hf this Hthis. unfold mbind, M_bind.
  specialize (Hm this Hthis). destruct (m this) as [[a|e] this']; [|done].
  by apply Hf.
Qed.

Lemma preserves_catch {A : Type} (m : M A) (handler : exn -> M A) :
  preserves m -> (forall e, preserves (handler e)) -> preserves (catch m handler).
Proof.
  intros Hm Hh this Hthis. unfold catch.
  specialize (Hm this Hthis). destruct (m this) as [[a|e] this']; [done|].
  by apply Hh.
Qed.

Lemma preserves_forEach {A : Type} (l : list A) (f : A -> M unit) :
  (forall x, preserves (f x)) -> preserves (forEach l f).
Proof.
  intros Hf. induction l as [|x l IH]; simpl; [apply preserves_ret|].
  apply preserves_bind; [done|]. by intros [].
Qed.

Lemma preserves_settle (m : M (option Response)) : preserves m -> preserves (settle m).
Proof.
  intros Hm this Hthis. unfold settle. specialize (Hm this Hthis).
  by destruct (m this) as [[a|e] this'].
Qed.

(** A change of a field the layout does not speak of. *)
Lemma preserves_modify (f : service -> service) :
  (forall this, columnCount (f this) = columnCount this) ->
  (forall this, columns (f this) = columns this) ->
  (forall this, _columnHeights (f this) = _columnHeights this) ->
  (forall this, photos (f this) = photos this) ->
  preserves (modify f).
Proof.
  intros H1 H2 H3 H4 this Hthis. unfold consistent, modify. simpl.
  by rewrite H1, H2, H3, H4.
Qed.

Lemma preserves_resetColumns : preserves _resetColumns.
Proof. intros this _. apply resetColumns_consistent. Qed.

Lemma preserves_reset : preserves _reset.
Proof. intros this _. apply (resetColumns_consistent (set_pagination ∅ (set_photos [] this))). Qed.

Lemma preserves_changeColumnCount (n : nat) : preserves (changeColumnCount n).
Proof.
  intros this Hthis. unfold changeColumnCount, mbind, M_bind, get.
  destruct (negb (n =? columnCount this)%nat); [|done].
  apply (resetColumns_consistent (set_columnCount n this)).
Qed.

(** The photo joins the flat list, then a column. *)
Lemma preserves_push_add (p : photo) :
  preserves (modify (fun this => set_photos (photos this ++ [p]) this) ;;
             _addPhotoToColumns p).
Proof.
  intros this (Hlen & Hsum & Hsub).
  pose proof (forEach_add_consistent [p] (set_photos (photos this ++ [p]) this) Hlen Hsum)
    as H.
  simpl in H. unfold mbind, M_bind, modify in *. simpl.
  destruct (_addPhotoToColumns p (set_photos (photos this ++ [p]) this)) as [[[]|e] s'];
    apply H; by apply submseteq_app.
Qed.

Create HintDb preserve.

#[local] Hint Resolve preserves_ret preserves_throw preserves_lift preserves_get
  preserves_bind preserves_catch preserves_forEach preserves_settle
  preserves_resetColumns preserves_reset preserves_changeColumnCount
  preserves_push_add : preserve.

#[local] Hint Extern 1 (preserves (modify _)) =>
  apply preserves_modify; reflexivity : preserve.

#[local] Hint Extern 2 (preserves (match ?x with _ => _ end)) => destruct x : preserve.

Section Preserved.

Variable coerce : json -> result jsnum.
Variable net : request -> fetched.

Lemma preserves_addPhoto (photo : json) : preserves (_addPhoto coerce photo).
Proof. unfold _addPhoto. eauto 10 with preserve. Qed.

Lemma preserves_addPhotosFromResponse (response : json) :
  preserves (_addPhotosFromResponse coerce response).
Proof.
  pose proof preserves_addPhoto. unfold _addPhotosFromResponse. eauto 10 with preserve.
Qed.

Lemma preserves_checkStatus (response : Response) : preserves (_checkStatus response).
Proof. unfold _checkStatus. eauto 10 with preserve. Qed.

Lemma preserves_extractPagination (response : Response) :
  preserves (_extractPagination response).
Proof. unfold _extractPagination. eauto 10 with preserve. Qed.

Lemma preserves_makeRequest (url : option string) : preserves (_makeRequest coerce net url).
Proof.
  pose proof preserves_checkStatus. pose proof preserves_extractPagination.
  pose proof preserves_addPhotosFromResponse.
  unfold _makeRequest, _makeRequest_send, _makeRequest_settle, _makeRequest_then,
    connection_fallback, fetch_send, fetch_settle.
  eauto 15 with preserve.
Qed.

Lemma preserves_perform_loading (body : M unit) :
  preserves body -> preserves (perform_loading body).
Proof. intros Hbody. unfold perform_loading, run_task. eauto 10 with preserve. Qed.

Lemma preserves_loadNew_task : preserves (_loadNew coerce net).
Proof. apply preserves_perform_loading, preserves_makeRequest. Qed.

Lemma perform_consistent (op : operation) (this : service) :
  consistent this -> consistent (perform coerce net op this).
Proof.
  pose proof preserves_makeRequest. pose proof preserves_perform_loading.
  pose proof preserves_checkStatus. pose proof preserves_loadNew_task.
  revert this. destruct op as [| |n|id|term|]; simpl.
  - change (preserves (loadNew coerce net)). unfold loadNew. eauto 10 with preserve.
  - change (preserves (loadNextPage coerce net)).
    unfold loadNextPage, _loadNextPage. eauto 15 with preserve.
  - apply preserves_changeColumnCount.
  - change (preserves (sendTestRequest net id)).
    unfold sendTestRequest, fetch_send, fetch_settle. eauto 10 with preserve.
  - change (preserves (updateSearch coerce net term)).
    unfold updateSearch, _search, run_task. eauto 15 with preserve.
  - change (preserves (_retryLastRequest coerce net)).
    unfold _retryLastRequest. eauto 10 with preserve.
Qed.

End Preserved.

(** X21. Every service the public operations lead to from [init()] is
    consistent: there is one column per count, every height is the sum of
    the contributions of its column, and the columns hold only photos of
    the flat list, none more often than the list does. *)
Lemma reachable_consistent (coerce : json -> result jsnum) (this : service) :
  reachable coerce this -> consistent this.
Proof.
  induction 1 as [id|net op this _ IH].
  - apply (resetColumns_consistent (set_pagination ∅ (set_photos [] (created id)))).
  - by apply perform_consistent.
Qed.

(** * Further properties of the code *)

(** ** Invariants of computations *)

Section Keeps.

Variable I : service -> Prop.

Lemma keeps_ret {A : Type} (a : A) : keeps I (ret a).
Proof. by intros this. Qed.

Lemma keeps_throw {A : Type} (e : exn) : keeps I (@throw A e).
Proof. by intros this. Qed.

Lemma keeps_lift {A : Type} (r : result A) : keeps I (lift r).
Proof. by intros this. Qed.

Lemma keeps_get {A : Type} (field : service -> A) : keeps I (get field).
Proof. by intros this. Qed.

Lemma keeps_bind {A B : Type} (m : M A) (f : A -> M B) :
  keeps I m -> (forall a, keeps I (f a)) -> keeps I (m ≫= f).
Proof.
  intros Hm Hf this Hthis. unfold mbind, M_bind.
  specialize (Hm this Hthis). destruct (m this) as [[a|e] this']; [|done].
  by apply Hf.
Qed.

Lemma keeps_catch {A : Type} (m : M A) (handler : exn -> M A) :
  keeps I m -> (forall e, keeps I (handler e)) -> keeps I (catch m handler).
Proof.
  intros Hm Hh this Hthis. unfold catch.
  specialize (Hm this Hthis). destruct (m this) as [[a|e] this']; [done|].
  by apply Hh.
Qed.

Lemma keeps_forEach {A : Type} (l : list A) (f : A -> M unit) :
  (forall x, keeps I (f x)) -> keeps I (forEach l f).
Proof.
  intros Hf. induction l as [|x l IH]; simpl; [apply keeps_ret|].
  apply keeps_bind; [done|]. by intros [].
Qed.

Lemma keeps_settle (m : M (option Response)) : keeps I m -> keeps I (settle m).
Proof.
  intros Hm this Hthis. unfold settle. specialize (Hm this Hthis).
  by destruct (m this) as [[a|e] this'].
Qed.

Lemma keeps_modify (f : service -> service) :
  (forall this, I this -> I (f this)) -> keeps I (modify f).
Proof. intros Hf this Hthis. by apply Hf. Qed.

End Keeps.

Create HintDb keep.

#[local] Hint Resolve keeps_ret keeps_throw keeps_lift keeps_get keeps_bind keeps_catch
  keeps_forEach keeps_settle : keep.

#[local] Hint Extern 2 (keeps _ (match ?x with _ => _ end)) => destruct x : keep.

(** ** What a request leaves alone *)

Section Blind.

Context {B : Type} (g : service -> B) (b : B).
Hypothesis Hblind : settle_blind g.

Let I (s : service) : Prop := g s = b.

Lemma blind_set_error (v : json) : keeps I (modify (set_error v)).
Proof. apply keeps_modify. intros s Hs. unfold I. by rewrite (proj1 Hblind). Qed.

Lemma blind_set_pagination (v : gmap string string) : keeps I (modify (set_pagination v)).
Proof.
  apply keeps_modify. intros s Hs. unfold I. by rewrite (proj1 (proj2 Hblind)).
Qed.

Lemma blind_push (p : photo) :
  keeps I (modify (fun this => set_photos (photos this ++ [p]) this)).
Proof.
  apply keeps_modify. intros s Hs. unfold I.
  by rewrite (proj1 (proj2 (proj2 Hblind))).
Qed.

Lemma blind_addPhotoToColumns (p : photo) : keeps I (_addPhotoToColumns p).
Proof.
  destruct Hblind as (_ & _ & _ & Hc & Hh).
  intros s Hs. unfold _addPhotoToColumns, mbind, M_bind, get, modify, throw. simpl.
  destruct (indexOf _ _) as [i|]; [|done]. simpl.
  destruct (columns s !! i); simpl; unfold I; by rewrite ?Hc, ?Hh.
Qed.

Lemma blind_resetColumns : keeps I _resetColumns.
Proof.
  destruct Hblind as (_ & _ & _ & Hc & Hh).
  pose proof blind_addPhotoToColumns.
  unfold _resetColumns.
  apply keeps_bind; [apply keeps_get|intros n].
  apply keeps_bind; [apply keeps_modify; intros s Hs; unfold I; by rewrite Hc|intros _].
  apply keeps_bind; [apply keeps_modify; intros s Hs; unfold I; by rewrite Hh|intros _].
  eauto 10 with keep.
Qed.

Lemma blind_reset : keeps I _reset.
Proof.
  pose proof blind_resetColumns. pose proof blind_set_pagination.
  destruct Hblind as (_ & _ & Hp & _ & _).
  unfold _reset.
  apply keeps_bind; [apply keeps_modify; intros s Hs; unfold I; by rewrite Hp|intros _].
  eauto 10 with keep.
Qed.

Variable coerce : json -> result jsnum.

Lemma blind_addPhoto (photo : json) : keeps I (_addPhoto coerce photo).
Proof.
  pose proof blind_push. pose proof blind_addPhotoToColumns.
  unfold _addPhoto. eauto 10 with keep.
Qed.

Lemma blind_settle (answer : fetched) : keeps I (_makeRequest_settle coerce answer).
Proof.
  pose proof blind_addPhoto. pose proof blind_set_error. pose proof blind_set_pagination.
  unfold _makeRequest_settle, _makeRequest_then, connection_fallback, fetch_settle,
    _checkStatus, _extractPagination, _addPhotosFromResponse.
  eauto 20 with keep.
Qed.

End Blind.

(** The chain of a request changes nothing a blind reading sees. *)
Lemma makeRequest_settle_blind {B : Type} (g : service -> B) (coerce : json -> result jsnum)
    (answer : fetched) (s : service) :
  settle_blind g -> g (_makeRequest_settle coerce answer s).2 = g s.
Proof. intros Hg. by apply (blind_settle g (g s) Hg coerce answer s). Qed.

Lemma reset_blind {B : Type} (g : service -> B) (s : service) :
  settle_blind g -> g (cleared s) = g s.
Proof.
  intros (_ & Hpg & Hp & Hc & Hh). unfold cleared. by rewrite Hh, Hc, Hpg, Hp.
Qed.

(** ** The bookkeeping of a request *)

(** Closes [settle_blind g] for a projection [g] of the record. *)
Ltac blind := repeat split.

(** What a request leaves of a blind reading: what it was once the
    request had left. *)
Lemma makeRequest_state (coerce : json -> result jsnum) (net : request -> fetched)
    (url : option string) (this : service) :
  _makeRequest coerce net url this = (Ok tt, (_makeRequest coerce net url this).2).
Proof.
  destruct (run_task_makeRequest coerce net url this) as (this' & -> & _). done.
Qed.

Lemma makeRequest_blind {B : Type} (g : service -> B) (coerce : json -> result jsnum)
    (net : request -> fetched) (url : option string) (this : service) :
  settle_blind g -> g (_makeRequest coerce net url this).2 = g (prepared url this).
Proof. intros Hg. rewrite makeRequest_eq. by apply makeRequest_settle_blind. Qed.

(** X1. Whatever the network answers, [_makeRequest] sends exactly one
    request, to the URL it is given and with the configured credential and
    the version header, remembers that URL for a retry, and leaves the
    credential, the column count, the search term and the state of the
    tasks as they were. *)
Theorem makeRequest_bookkeeping (coerce : json -> result jsnum) (net : request -> fetched)
    (url : option string) (this : service) :
  exists this',
    _makeRequest coerce net url this = (Ok tt, this')
    /\ sent this' = sent this ++ [mkRequest (url_text url)
                                   [("Authorization", ("Client-ID " ++ applicationId this)%string);
                                    ("Accept-Version", "v1")]]
    /\ _lastRequestUrl this' = url
    /\ applicationId this' = applicationId this
    /\ columnCount this' = columnCount this
    /\ searchTerm this' = searchTerm this
    /\ _search_isRunning this' = _search_isRunning this
    /\ _loadingTasks_isRunning this' = _loadingTasks_isRunning this.
Proof.
  eexists. split; [apply makeRequest_state|].
  repeat split.
  - by rewrite (makeRequest_blind sent) by blind.
  - by rewrite (makeRequest_blind _lastRequestUrl) by blind.
  - by rewrite (makeRequest_blind applicationId) by blind.
  - by rewrite (makeRequest_blind columnCount) by blind.
  - by rewrite (makeRequest_blind searchTerm) by blind.
  - by rewrite (makeRequest_blind _search_isRunning) by blind.
  - by rewrite (makeRequest_blind _loadingTasks_isRunning) by blind.
Qed.

(** X2. A retry sends again the request that was sent last, whatever became
    of it: after [_makeRequest(url)] the task [_retryLastRequest], when no
    load is running, sends a second request equal to the first. *)
Theorem retry_resends_last_request (coerce : json -> result jsnum)
    (net net' : request -> fetched) (url : option string) (this : service) :
  _loadingTasks_isRunning this = false ->
  let this1 := (_makeRequest coerce net url this).2 in
  exists this2,
    _retryLastRequest coerce net' this1 = (Ok (Fulfilled None), this2)
    /\ sent this2 = sent this ++ [request_for url this; request_for url this]
    /\ _lastRequestUrl this2 = url.
Proof.
  intros Hidle this1.
  assert (Hurl : _lastRequestUrl this1 = url)
    by (unfold this1; by rewrite (makeRequest_blind _lastRequestUrl) by blind).
  assert (Hbusy : _loadingTasks_isRunning this1 = false)
    by (unfold this1; by rewrite (makeRequest_blind _loadingTasks_isRunning) by blind).
  assert (Hid : applicationId this1 = applicationId this)
    by (unfold this1; by rewrite (makeRequest_blind applicationId) by blind).
  assert (Hsent : sent this1 = sent this ++ [request_for url this])
    by (unfold this1; by rewrite (makeRequest_blind sent) by blind).
  exists (_makeRequest coerce net' url this1).2. split; [|split].
  - unfold _retryLastRequest, perform_loading, mbind, M_bind, get.
    rewrite Hbusy.
    unfold run_task, settle, mbind, M_bind. rewrite Hurl.
    by rewrite (makeRequest_state coerce net' url this1).
  - rewrite (makeRequest_blind sent) by blind. simpl. rewrite Hsent.
    unfold request_for. rewrite Hid. by rewrite <- app_assoc.
  - by rewrite (makeRequest_blind _lastRequestUrl) by blind.
Qed.

Lemma retry_resends_last_request_witness :
  let this := init "id" in
  let this1 := (_makeRequest example_coerce (fun _ => NetworkFailure) (Some load_url) this).2 in
  exists this2,
    _retryLastRequest example_coerce (fun _ => Responded example_page) this1
    = (Ok (Fulfilled None), this2)
    /\ sent this2
       = sent this ++ [request_for (Some load_url) this; request_for (Some load_url) this]
    /\ _lastRequestUrl this2 = Some load_url.
Proof.
  apply (retry_resends_last_request example_coerce (fun _ => NetworkFailure)
           (fun _ => Responded example_page) (Some load_url) (init "id")).
  reflexivity.
Defined.

(** ** Requests that fail *)

(** X3. A request that fails, because the network gives no response or
    because the status is not a success, touches neither the photos nor the
    columns, their heights or the pagination state; it records a text: the
    one resolved from the body when the body could be read, the message for
    a connection problem else. *)
Theorem failed_request_keeps_photos (coerce : json -> result jsnum)
    (net : request -> fetched) (url : option string) (this : service) :
  match net (request_for url this) with
  | NetworkFailure => True
  | Responded r => ok_status r = false
  end ->
  exists this',
    _makeRequest coerce net url this = (Ok tt, this')
    /\ this' = set_error (error this') (prepared url this)
    /\ photos this' = photos this
    /\ columns this' = columns this
    /\ _columnHeights this' = _columnHeights this
    /\ _pagination this' = _pagination this
    /\ truthy (error this') = true
    /\ error this'
       = match net (request_for url this) with
         | NetworkFailure => JStr CONNECTION_MESSAGE
         | Responded r =>
             match responseTextPromise r with
             | Ok text => resolve_errorText r text
             | Throw _ => JStr CONNECTION_MESSAGE
             end
         end.
Proof.
  intros Hfail. rewrite makeRequest_eq.
  unfold _makeRequest_settle, _makeRequest_then, catch, mbind, M_bind.
  destruct (net (request_for url this)) as [|r]; simpl.
  - eexists. split; [reflexivity|]. by repeat split.
  - rewrite checkStatus_eq, Hfail.
    destruct (responseTextPromise r) as [text|e]; simpl.
    + unfold connection_fallback, mbind, M_bind, get. simpl.
      rewrite resolve_errorText_truthy. simpl.
      eexists. split; [reflexivity|]. repeat split; try done.
      apply resolve_errorText_truthy.
    + eexists. split; [reflexivity|]. by repeat split.
Qed.

Lemma failed_request_keeps_photos_witness :
  let this := (loadNew example_coerce (fun _ => Responded example_page) (init "id")).2 in
  exists this',
    _makeRequest example_coerce (fun _ => Responded example_unauthorized) (Some load_url) this
    = (Ok tt, this')
    /\ this' = set_error (error this') (prepared (Some load_url) this)
    /\ photos this' = photos this
    /\ columns this' = columns this
    /\ _columnHeights this' = _columnHeights this
    /\ _pagination this' = _pagination this
    /\ truthy (error this') = true
    /\ error this'
       = match (fun _ => Responded example_unauthorized) (request_for (Some load_url) this) with
         | NetworkFailure => JStr CONNECTION_MESSAGE
         | Responded r =>
             match responseTextPromise r with
             | Ok text => resolve_errorText r text
             | Throw _ => JStr CONNECTION_MESSAGE
             end
         end.
Proof.
  apply (failed_request_keeps_photos example_coerce (fun _ => Responded example_unauthorized)).
  reflexivity.
Defined.

(** X4. The text recorded for an answer that is not a success and not a
    rate limit: the raw body when it is announced as [text/xml] and is not
    empty; the first entry of [errors] when the body is announced as JSON
    and that entry is a text that is not empty; the message that names the
    status code when the content type is another one or the text found is
    empty. *)
Theorem error_text_from_body (r : Response) :
  ok_status r = false ->
  (status r =? 403)%Z && header_is r "x-ratelimit-remaining" "0" = false ->
  (header_is r "content-type" "application/json" = false ->
   header_is r "content-type" "text/xml" = true ->
   responseTextPromise r = Ok (Some (JStr (body_text r)))
   /\ resolve_errorText r (Some (JStr (body_text r)))
      = if String.eqb (body_text r) "" then JStr (status_message r)
        else JStr (body_text r))
  /\ (forall props message rest,
        header_is r "content-type" "application/json" = true ->
        body_json r = Some (JObj props) ->
        get_prop "errors" props = Some (JArr (JStr message :: rest)) ->
        responseTextPromise r = Ok (Some (JStr message))
        /\ resolve_errorText r (Some (JStr message))
           = if String.eqb message "" then JStr (status_message r) else JStr message)
  /\ (header_is r "content-type" "application/json" = false ->
      header_is r "content-type" "text/xml" = false ->
      responseTextPromise r = Ok None
      /\ resolve_errorText r None = JStr (status_message r)).
Proof.
  intros Hok Hrate. unfold responseTextPromise, resolve_errorText. rewrite Hrate.
  split; [|split].
  - intros -> ->. split; [done|]. simpl. by destruct (String.eqb (body_text r) "").
  - intros props message rest -> -> Herr. simpl. rewrite Herr. split; [done|].
    simpl. by destruct (String.eqb message "").
  - by intros -> ->.
Qed.

Lemma error_text_from_body_witness :
  ok_status example_unauthorized = false
  /\ (status example_unauthorized =? 403)%Z
     && header_is example_unauthorized "x-ratelimit-remaining" "0" = false
  /\ forall props message rest,
       header_is example_unauthorized "content-type" "application/json" = true ->
       body_json example_unauthorized = Some (JObj props) ->
       get_prop "errors" props = Some (JArr (JStr message :: rest)) ->
       responseTextPromise example_unauthorized = Ok (Some (JStr message))
       /\ resolve_errorText example_unauthorized (Some (JStr message))
          = if String.eqb message "" then JStr (status_message example_unauthorized)
            else JStr message.
Proof.
  split; [reflexivity|]. split; [reflexivity|].
  apply (error_text_from_body example_unauthorized); reflexivity.
Defined.

(** ** Requests that succeed *)

(** The chain of a request on a successful answer whose Link header can
    be read and whose body holds records. *)
Lemma makeRequest_settle_page (coerce : json -> result jsnum) (r : Response)
    (links : gmap string string) (j : json) (items : list json) (s : service) :
  ok_status r = true ->
  collect_links (link_entries (headers r !! "link")) ∅ = Ok links ->
  body_json r = Some j ->
  (j = JArr items
   \/ exists props, j = JObj props /\ get_prop "results" props = Some (JArr items)) ->
  Forall (fun item => photo_record item = true) items ->
  finite_layout s ->
  concat (columns s) ≡ₚ photos s ->
  exists s',
    _makeRequest_settle coerce (Responded r) s = (Ok tt, s')
    /\ error s' = error s
    /\ _pagination s' = links
    /\ photos s' = photos s ++ (photo_of <$> items)
    /\ added_run items (set_pagination links s) s'
    /\ concat (columns s') ≡ₚ photos s'.
Proof.
  intros Hok Hlinks Hbody Hj Hitems Hlayout Hperm.
  destruct (forEach_addPhoto_records coerce items (set_pagination links s))
    as (s' & Hrun & Hadded & _ & Hphotos & Hperm'); [done..|].
  assert (Hframe : error s' = error s /\ _pagination s' = links).
  { clear -Hadded. remember (set_pagination links s) as s0 eqn:Hs.
    assert (Hinit : error s0 = error s /\ _pagination s0 = links) by by subst s0.
    clear Hs. induction Hadded as [|? ? ? ? ? _ _ IH]; [done|]. by apply IH. }
  exists s'. split; [|by destruct Hframe].
  unfold _makeRequest_settle, _makeRequest_then, catch, mbind, M_bind. simpl.
  rewrite checkStatus_eq, Hok.
  unfold _extractPagination, lift, mbind, M_bind. rewrite Hlinks. simpl. rewrite Hbody. simpl.
  destruct Hj as [->|(props & -> & Hres)]; simpl; [|rewrite Hres]; by rewrite Hrun.
Qed.



(** ** The next page *)

(** X6. With photos loaded, no search and no load running and a [next]
    link stored, [loadNextPage()] sends one request, to exactly that URL,
    which becomes the URL of a retry; a [next] link that is the empty text
    counts as none: the call rejects and sends nothing. *)
Theorem loadNextPage_follows_next (coerce : json -> result jsnum) (net : request -> fetched)
    (this : service) (next : string) :
  photos this <> [] ->
  _search_isRunning this = false ->
  _loadingTasks_isRunning this = false ->
  _pagination this !! "next" = Some next ->
  if String.eqb next "" then
    loadNextPage coerce net this = (Ok (Rejected RejectedUndefined), this)
  else
    exists this',
      loadNextPage coerce net this = (Ok (Fulfilled None), this')
      /\ _makeRequest coerce net (Some next) this = (Ok tt, this')
      /\ sent this' = sent this ++ [request_for (Some next) this]
      /\ _lastRequestUrl this' = Some next.
Proof.
  intros Hphotos Hsearch Hidle Hnext.
  unfold loadNextPage, mbind, M_bind, get. rewrite Hsearch.
  destruct (photos this) as [|p ps] eqn:Hps; [done|].
  unfold pagination_next. rewrite Hnext.
  destruct next as [|c next]; [done|].
  change (String.eqb (String c next) "") with false. cbv iota.
  rewrite loadNextPage_task_eq. unfold pagination_next. rewrite Hnext.
  unfold perform_loading, mbind, M_bind, get. rewrite Hidle.
  exists (_makeRequest coerce net (Some (String c next)) this).2.
  pose proof (makeRequest_state coerce net (Some (String c next)) this) as Hreq.
  split; [|split; [done|split]].
  - unfold run_task, settle, mbind, M_bind. by rewrite Hreq.
  - by rewrite (makeRequest_blind sent) by blind.
  - by rewrite (makeRequest_blind _lastRequestUrl) by blind.
Qed.

Lemma loadNextPage_follows_next_witness :
  let this := (loadNew example_coerce (fun _ => Responded example_search_page) (init "id")).2 in
  let next := "https://api.unsplash.com/search/photos?page=2" in
  exists this',
    loadNextPage example_coerce (fun _ => Responded example_page) this
    = (Ok (Fulfilled None), this')
    /\ _makeRequest example_coerce (fun _ => Responded example_page) (Some next) this
       = (Ok tt, this')
    /\ sent this' = sent this ++ [request_for (Some next) this]
    /\ _lastRequestUrl this' = Some next.
Proof.
  intros this next.
  apply (loadNextPage_follows_next example_coerce (fun _ => Responded example_page) this next);
    [done|reflexivity..].
Defined.



(** ** What the operations leave alone *)

Section Stable.

Context {B : Type} (g : service -> B) (b : B).
Hypothesis Hblind : request_blind g.

Let I (s : service) : Prop := g s = b.

Variable coerce : json -> result jsnum.
Variable net : request -> fetched.

Lemma stable_fetch_send (url : option string) (hdrs : list (string * string)) :
  keeps I (fetch_send url hdrs).
Proof.
  destruct Hblind as (_ & Hs & _). unfold fetch_send.
  apply keeps_bind; [|intros _; apply keeps_ret].
  apply keeps_modify. intros s Hg. unfold I. by rewrite Hs.
Qed.

Lemma stable_checkStatus (response : Response) : keeps I (_checkStatus response).
Proof.
  pose proof (blind_set_error g b (proj1 Hblind)) as Herr. cbv zeta in Herr. fold I in Herr.
  unfold _checkStatus. destruct (ok_status response); [apply keeps_ret|].
  apply keeps_bind; [apply keeps_lift|intros text]. cbv zeta.
  apply keeps_bind; [apply Herr|intros _; apply keeps_throw].
Qed.

Lemma stable_makeRequest (url : option string) : keeps I (_makeRequest coerce net url).
Proof.
  destruct Hblind as (Hsettle & Hs & Hu).
  intros s Hg. unfold I.
  rewrite (makeRequest_blind g) by done. unfold prepared.
  by rewrite Hs, Hu, (proj1 Hsettle).
Qed.

Lemma stable_perform_loading (body : M unit) :
  keeps I body -> keeps I (perform_loading body).
Proof. intros Hbody. unfold perform_loading, run_task. eauto 10 with keep. Qed.

Lemma stable_loadNew : keeps I (loadNew coerce net).
Proof.
  pose proof (blind_reset g b (proj1 Hblind)) as Hreset. cbv zeta in Hreset. fold I in Hreset.
  pose proof stable_makeRequest. pose proof stable_perform_loading.
  unfold loadNew, _loadNew. eauto 10 with keep.
Qed.

Lemma stable_loadNextPage : keeps I (loadNextPage coerce net).
Proof.
  pose proof stable_makeRequest. pose proof stable_perform_loading.
  unfold loadNextPage, _loadNew, _loadNextPage. eauto 20 with keep.
Qed.

Lemma stable_retryLastRequest : keeps I (_retryLastRequest coerce net).
Proof.
  pose proof stable_makeRequest. pose proof stable_perform_loading.
  unfold _retryLastRequest. eauto 10 with keep.
Qed.

Lemma stable_sendTestRequest (testApplicationId : string) :
  keeps I (sendTestRequest net testApplicationId).
Proof.
  pose proof stable_fetch_send. pose proof stable_checkStatus.
  unfold sendTestRequest, fetch_settle. eauto 10 with keep.
Qed.

Lemma stable_changeColumnCount (n : nat) :
  (forall v s, g (set_columnCount v s) = g s) -> keeps I (changeColumnCount n).
Proof.
  intros Hn. pose proof (blind_resetColumns g b (proj1 Hblind)) as Hreset.
  cbv zeta in Hreset. fold I in Hreset.
  unfold changeColumnCount.
  apply keeps_bind; [apply keeps_get|intros m].
  destruct (negb _); [|apply keeps_ret].
  apply keeps_bind; [|done].
  apply keeps_modify. intros s Hg. unfold I. by rewrite Hn.
Qed.

Lemma stable_updateSearch (term : string) :
  (forall v s, g (set_searchTerm v s) = g s) -> keeps I (updateSearch coerce net term).
Proof.
  intros Ht. pose proof (blind_reset g b (proj1 Hblind)) as Hreset.
  cbv zeta in Hreset. fold I in Hreset. pose proof stable_makeRequest.
  pose proof stable_perform_loading.
  unfold updateSearch, _search, _loadNew, run_task.
  apply keeps_bind; [apply keeps_get|intros current].
  destruct (String.eqb term current); [apply keeps_ret|].
  apply keeps_bind; [apply keeps_modify; intros s Hg; unfold I; by rewrite Ht|intros _].
  eauto 10 with keep.
Qed.

End Stable.

(** Closes [request_blind g] for a projection [g] of the record. *)
Ltac stable := repeat split.

(** The term [updateSearch] leaves in [searchTerm]. *)
Lemma updateSearch_searchTerm (coerce : json -> result jsnum) (net : request -> fetched)
    (term : string) (this : service) :
  searchTerm (updateSearch coerce net term this).2 = term.
Proof.
  unfold updateSearch, mbind, M_bind, get.
  destruct (String.eqb_spec term (searchTerm this)) as [->|Hne]; [done|].
  simpl.
  destruct (negb (String.eqb term "")).
  - unfold _search, run_task, settle, mbind, M_bind.
    rewrite (makeRequest_state coerce net). simpl.
    rewrite (makeRequest_blind searchTerm) by blind. done.
  - unfold _loadNew, perform_loading, mbind, M_bind, get. simpl.
    destruct (_loadingTasks_isRunning this); [done|].
    unfold run_task, settle, mbind, M_bind.
    rewrite (makeRequest_state coerce net). simpl.
    rewrite (makeRequest_blind searchTerm) by blind. done.
Qed.

(** X7. No public operation changes the credential; only
    [changeColumnCount] changes the column count, which then is the count
    asked for; only [updateSearch] changes the search term, which then is
    the term given. *)
Theorem operations_keep_configuration (coerce : json -> result jsnum)
    (net : request -> fetched) (op : operation) (this : service) :
  let this' := perform coerce net op this in
  applicationId this' = applicationId this
  /\ columnCount this'
     = match op with ChangeColumnCount n => n | _ => columnCount this end
  /\ searchTerm this'
     = match op with UpdateSearch term => term | _ => searchTerm this end.
Proof.
  intros this'. subst this'. split; [|split].
  - destruct op; simpl.
    + by apply (stable_loadNew applicationId) ; [stable|].
    + by apply (stable_loadNextPage applicationId); [stable|].
    + by apply (stable_changeColumnCount applicationId); [stable|..].
    + by apply (stable_sendTestRequest applicationId); [stable|].
    + by apply (stable_updateSearch applicationId); [stable|..].
    + by apply (stable_retryLastRequest applicationId); [stable|].
  - destruct op; simpl.
    + by apply (stable_loadNew columnCount) ; [stable|].
    + by apply (stable_loadNextPage columnCount); [stable|].
    + unfold changeColumnCount, mbind, M_bind, get.
      destruct (Nat.eqb_spec newColumnCount (columnCount this)) as [->|Hne]; [done|].
      simpl. by apply (blind_resetColumns columnCount); [blind|].
    + by apply (stable_sendTestRequest columnCount); [stable|].
    + by apply (stable_updateSearch columnCount); [stable|..].
    + by apply (stable_retryLastRequest columnCount); [stable|].
  - destruct op; simpl.
    + by apply (stable_loadNew searchTerm) ; [stable|].
    + by apply (stable_loadNextPage searchTerm); [stable|].
    + by apply (stable_changeColumnCount searchTerm); [stable|..].
    + by apply (stable_sendTestRequest searchTerm); [stable|].
    + apply updateSearch_searchTerm.
    + by apply (stable_retryLastRequest searchTerm); [stable|].
Qed.

(** X8. Calling [updateSearch] a second time with the same term does
    nothing: whatever the first call did and whatever the network answered,
    the second returns at once and leaves the service as it is. *)
Theorem updateSearch_twice (coerce : json -> result jsnum) (net net' : request -> fetched)
    (term : string) (this : service) :
  let this1 := (updateSearch coerce net term this).2 in
  updateSearch coerce net' term this1 = (Ok ReturnedUndefined, this1).
Proof.
  intros this1. unfold updateSearch at 1. unfold mbind, M_bind, get.
  replace (searchTerm this1) with term
    by (symmetry; apply updateSearch_searchTerm).
  by rewrite String.eqb_refl.
Qed.

(** ** The requests of an operation *)

Lemma loading_sent (coerce : json -> result jsnum) (net : request -> fetched)
    (url : option string) (s : service) :
  exists reqs,
    sent (perform_loading (_makeRequest coerce net url) s).2 = sent s ++ reqs
    /\ (reqs = [] \/ reqs = [request_for url s]).
Proof.
  unfold perform_loading, mbind, M_bind, get.
  destruct (_loadingTasks_isRunning s).
  - exists []. split; [by rewrite app_nil_r|by left].
  - exists [request_for url s]. split; [|by right].
    unfold run_task, settle, mbind, M_bind.
    rewrite (makeRequest_state coerce net). simpl.
    by rewrite (makeRequest_blind sent) by blind.
Qed.

Lemma nothing_sent (this this' : service) (id : string) (P : Prop) :
  sent this' = sent this ->
  exists reqs,
    sent this' = sent this ++ reqs
    /\ (length reqs <= 1)%nat
    /\ (P -> reqs = [])
    /\ (forall req, req ∈ reqs -> req_headers req = request_headers id).
Proof.
  intros Hsent. exists []. rewrite app_nil_r. split; [done|]. split; [simpl; lia|].
  split; [done|]. by intros req ?%elem_of_nil.
Qed.

Lemma one_sent (this this' : service) (url : option string) (s : service) (id : string)
    (reqs : list request) :
  sent s = sent this ->
  applicationId s = id ->
  sent this' = sent s ++ reqs ->
  reqs = [] \/ reqs = [request_for url s] ->
  sent this' = sent this ++ reqs
  /\ (length reqs <= 1)%nat
  /\ (forall req, req ∈ reqs -> req_headers req = request_headers id).
Proof.
  intros Hs Hid Hsent Hreqs. split; [by rewrite <- Hs|].
  destruct Hreqs as [-> | ->]; (split; [simpl; lia|]); intros req Hin.
  - by apply elem_of_nil in Hin.
  - apply list_elem_of_singleton in Hin as ->. simpl. by rewrite Hid.
Qed.

(** X9. A public operation run to its end sends at most one request,
    [changeColumnCount] none; the request carries the configured
    credential, that of [sendTestRequest] the credential under test. *)
Theorem operations_send_at_most_one_request (coerce : json -> result jsnum)
    (net : request -> fetched) (op : operation) (this : service) :
  exists reqs,
    sent (perform coerce net op this) = sent this ++ reqs
    /\ (length reqs <= 1)%nat
    /\ (forall n, op = ChangeColumnCount n -> reqs = [])
    /\ (forall req, req ∈ reqs ->
          req_headers req
          = request_headers match op with
                            | SendTestRequest testApplicationId => testApplicationId
                            | _ => applicationId this
                            end).
Proof.
  destruct op; simpl.
  - unfold loadNew, mbind, M_bind. rewrite reset_eq.
    destruct (loading_sent coerce net (Some load_url) (cleared this)) as (reqs & Hsent & Hreqs).
    exists reqs.
    destruct (one_sent this _ (Some load_url) (cleared this) (applicationId this) reqs
                eq_refl eq_refl Hsent Hreqs) as (? & ? & ?).
    by repeat split.
  - unfold loadNextPage, mbind, M_bind, get.
    destruct (_search_isRunning this).
    { destruct (nothing_sent this this (applicationId this)
                  (LoadNextPage = ChangeColumnCount 0) eq_refl) as (reqs & ? & ? & _ & ?).
      exists reqs. by repeat split. }
    destruct (photos this) as [|p ps].
    { destruct (loading_sent coerce net (Some load_url) this) as (reqs & Hsent & Hreqs).
      exists reqs.
      destruct (one_sent this _ (Some load_url) this (applicationId this) reqs
                  eq_refl eq_refl Hsent Hreqs) as (? & ? & ?).
      by repeat split. }
    destruct (pagination_next this) as [[|c next]|] eqn:Hnext.
    + destruct (nothing_sent this this (applicationId this)
                  (LoadNextPage = ChangeColumnCount 0) eq_refl) as (reqs & ? & ? & _ & ?).
      exists reqs. by repeat split.
    + rewrite loadNextPage_task_eq.
      destruct (loading_sent coerce net (pagination_next this) this) as (reqs & Hsent & Hreqs).
      exists reqs.
      destruct (one_sent this _ (pagination_next this) this (applicationId this) reqs
                  eq_refl eq_refl Hsent Hreqs) as (? & ? & ?).
      by repeat split.
    + destruct (nothing_sent this this (applicationId this)
                  (LoadNextPage = ChangeColumnCount 0) eq_refl) as (reqs & ? & ? & _ & ?).
      exists reqs. by repeat split.
  - destruct (nothing_sent this (changeColumnCount newColumnCount this).2 (applicationId this)
                True) as (reqs & ? & ? & Hnil & ?).
    { unfold changeColumnCount, mbind, M_bind, get.
      destruct (negb _); [|done]. simpl.
      by apply (blind_resetColumns sent); [blind|]. }
    exists reqs. repeat split; try done. intros _ _. by apply Hnil.
  - exists [mkRequest test_url (request_headers testApplicationId)].
    split; [|split; [simpl; lia|split; [done|]]].
    + unfold sendTestRequest, settle, mbind, M_bind. simpl.
      destruct (net _) as [|r]; simpl; [done|].
      rewrite checkStatus_eq. destruct (ok_status r); simpl; [done|].
      by destruct (responseTextPromise r).
    + by intros req ->%list_elem_of_singleton.
  - unfold updateSearch, mbind, M_bind, get.
    destruct (String.eqb term (searchTerm this)).
    { destruct (nothing_sent this this (applicationId this)
                  (LoadNextPage = ChangeColumnCount 0) eq_refl) as (reqs & ? & ? & _ & ?).
      exists reqs. by repeat split. }
    simpl. destruct (negb (String.eqb term "")).
    + exists [request_for (Some (search_url term)) this].
      split; [|split; [simpl; lia|split; [done|by intros req ->%list_elem_of_singleton]]].
      unfold _search, run_task, settle, mbind, M_bind.
      rewrite (makeRequest_state coerce net). simpl.
      by rewrite (makeRequest_blind sent) by blind.
    + destruct (loading_sent coerce net (Some load_url) (cleared (set_searchTerm term this)))
        as (reqs & Hsent & Hreqs).
      exists reqs.
      destruct (one_sent this _ (Some load_url) (cleared (set_searchTerm term this))
                  (applicationId this) reqs eq_refl eq_refl Hsent Hreqs) as (? & ? & ?).
      by repeat split.
  - unfold _retryLastRequest.
    change (url ← get _lastRequestUrl; _makeRequest coerce net url)
      with (fun s : service => _makeRequest coerce net (_lastRequestUrl s) s).
    assert (Heq : perform_loading (fun s => _makeRequest coerce net (_lastRequestUrl s) s) this
                  = perform_loading (_makeRequest coerce net (_lastRequestUrl this)) this).
    { unfold perform_loading, mbind, M_bind, get.
      destruct (_loadingTasks_isRunning this); [done|].
      by unfold run_task, settle, mbind, M_bind. }
    rewrite Heq.
    destruct (loading_sent coerce net (_lastRequestUrl this) this) as (reqs & Hsent & Hreqs).
    exists reqs.
    destruct (one_sent this _ (_lastRequestUrl this) this (applicationId this) reqs
                eq_refl eq_refl Hsent Hreqs) as (? & ? & ?).
    by repeat split.
Qed.

(** ** Invariants of the operations

    What an invariant of the public operations has to survive: the setters
    of the request, a photo joining the flat list and the columns, and the
    two ways the columns are rebuilt. *)

Section Invariant.

Variable I : service -> Prop.

Hypothesis Herror : forall v s, I s -> I (set_error v s).
Hypothesis Hpagination : forall v s, I s -> I (set_pagination v s).
Hypothesis Hsent : forall v s, I s -> I (set_sent v s).
Hypothesis Hurl : forall v s, I s -> I (set_lastRequestUrl v s).
Hypothesis Hterm : forall v s, I s -> I (set_searchTerm v s).
Hypothesis Hadd : forall p,
  keeps I (modify (fun this => set_photos (photos this ++ [p]) this) ;; _addPhotoToColumns p).
Hypothesis Hreset : forall s, I s -> I (cleared s).
Hypothesis Hcount : forall n s, I s -> I (_resetColumns (set_columnCount n s)).2.

Variable coerce : json -> result jsnum.
Variable net : request -> fetched.

Lemma invariant_addPhoto (photo : json) : keeps I (_addPhoto coerce photo).
Proof. unfold _addPhoto. eauto 10 with keep. Qed.

Lemma invariant_checkStatus (response : Response) : keeps I (_checkStatus response).
Proof.
  unfold _checkStatus. destruct (ok_status response); [apply keeps_ret|].
  apply keeps_bind; [apply keeps_lift|intros text]. cbv zeta.
  apply keeps_bind; [apply keeps_modify, Herror|intros _; apply keeps_throw].
Qed.

Lemma invariant_settle (answer : fetched) : keeps I (_makeRequest_settle coerce answer).
Proof.
  pose proof invariant_addPhoto. pose proof invariant_checkStatus.
  assert (forall v, keeps I (modify (set_error v))) by (intros v; apply keeps_modify, Herror).
  assert (forall v, keeps I (modify (set_pagination v)))
    by (intros v; apply keeps_modify, Hpagination).
  unfold _makeRequest_settle, _makeRequest_then, connection_fallback, fetch_settle,
    _extractPagination, _addPhotosFromResponse.
  eauto 20 with keep.
Qed.

Lemma invariant_makeRequest (url : option string) : keeps I (_makeRequest coerce net url).
Proof.
  intros s Hs. rewrite makeRequest_eq. apply invariant_settle.
  unfold prepared. by apply Hsent, Hurl, Herror.
Qed.

Lemma invariant_perform_loading (body : M unit) :
  keeps I body -> keeps I (perform_loading body).
Proof. intros Hbody. unfold perform_loading, run_task. eauto 10 with keep. Qed.

Lemma invariant_reset : keeps I _reset.
Proof. intros s Hs. rewrite reset_eq. by apply Hreset. Qed.

Lemma invariant_perform (op : operation) (this : service) :
  I this -> I (perform coerce net op this).
Proof.
  pose proof invariant_makeRequest. pose proof invariant_perform_loading.
  pose proof invariant_reset. pose proof invariant_checkStatus.
  revert this. destruct op; simpl.
  - change (keeps I (loadNew coerce net)).
    unfold loadNew, _loadNew. eauto 10 with keep.
  - change (keeps I (loadNextPage coerce net)).
    unfold loadNextPage, _loadNew, _loadNextPage. eauto 20 with keep.
  - intros this Hs. unfold changeColumnCount, mbind, M_bind, get.
    destruct (negb _); [|done]. by apply Hcount.
  - change (keeps I (sendTestRequest net testApplicationId)).
    unfold sendTestRequest, fetch_send, fetch_settle.
    assert (forall f, keeps I (modify (fun s => set_sent (f s) s)))
      by (intros f; apply keeps_modify; intros s; apply Hsent).
    eauto 20 with keep.
  - change (keeps I (updateSearch coerce net term)).
    unfold updateSearch, _search, _loadNew, run_task.
    assert (keeps I (modify (set_searchTerm term))) by apply keeps_modify, Hterm.
    eauto 20 with keep.
  - change (keeps I (_retryLastRequest coerce net)).
    unfold _retryLastRequest. eauto 10 with keep.
Qed.

End Invariant.

Lemma invariant_reachable (I : service -> Prop) (coerce : json -> result jsnum) :
  (forall v s, I s -> I (set_error v s)) ->
  (forall v s, I s -> I (set_pagination v s)) ->
  (forall v s, I s -> I (set_sent v s)) ->
  (forall v s, I s -> I (set_lastRequestUrl v s)) ->
  (forall v s, I s -> I (set_searchTerm v s)) ->
  (forall p, keeps I (modify (fun this => set_photos (photos this ++ [p]) this) ;;
                      _addPhotoToColumns p)) ->
  (forall s, I s -> I (cleared s)) ->
  (forall n s, I s -> I (_resetColumns (set_columnCount n s)).2) ->
  (forall id, I (init id)) ->
  forall this, reachable coerce this -> I this.
Proof.
  intros H1 H2 H3 H4 H5 H6 H7 H8 Hinit this Hreach.
  induction Hreach as [id|net op this _ IH]; [apply Hinit|].
  by apply invariant_perform.
Qed.

(** ** The layout is the redistribution of the photos *)

Lemma forEach_app {A : Type} (l1 l2 : list A) (f : A -> M unit) (s : service) :
  forEach (l1 ++ l2) f s
  = match forEach l1 f s with
    | (Ok _, s') => forEach l2 f s'
    | (Throw e, s') => (Throw e, s')
    end.
Proof.
  revert s. induction l1 as [|x l1 IH]; intros s; simpl; [done|].
  unfold mbind, M_bind. destruct (f x s) as [[[]|e] s']; [apply IH|done].
Qed.

(** The balancing step, by the column it picks. *)
Lemma addPhotoToColumns_eq (p : photo) (s : service) :
  _addPhotoToColumns p s
  = match columnIndex s with
    | None => (Throw TypeError, s)
    | Some i =>
        match columns s !! i with
        | None =>
            (Throw TypeError,
             set_columnHeights
               (alter (fun h => js_add h (contribution p)) i (_columnHeights s)) s)
        | Some _ => (Ok tt, place p i s)
        end
    end.
Proof.
  unfold _addPhotoToColumns, columnIndex, mbind, M_bind, get, modify, throw. simpl.
  destruct (indexOf _ _) as [i|]; [|done]. simpl. by destruct (columns s !! i).
Qed.

(** With one height per column the step places the photo, or throws and
    changes nothing. *)
Lemma addPhotoToColumns_even (p : photo) (s : service) :
  length (columns s) = length (_columnHeights s) ->
  _addPhotoToColumns p s
  = match columnIndex s with
    | None => (Throw TypeError, s)
    | Some i => (Ok tt, place p i s)
    end.
Proof.
  intros Hlen. rewrite addPhotoToColumns_eq.
  destruct (columnIndex s) as [i|] eqn:Hi; [|done].
  apply indexOf_lt in Hi. rewrite <- Hlen in Hi.
  by destruct (lookup_lt_is_Some_2 _ _ Hi) as [col ->].
Qed.

Lemma forEach_add_even (ps : list photo) (s : service) :
  length (columns s) = length (_columnHeights s) ->
  length (columns (forEach ps _addPhotoToColumns s).2)
  = length (_columnHeights (forEach ps _addPhotoToColumns s).2).
Proof.
  revert s. induction ps as [|p ps IH]; intros s Hlen; [done|].
  simpl. unfold mbind, M_bind. rewrite addPhotoToColumns_even by done.
  destruct (columnIndex s) as [i|]; [|done].
  apply IH. simpl. by rewrite !length_alter.
Qed.

(** Once the step throws it throws for every photo: the loop is stuck. *)
Lemma forEach_add_stuck (ps : list photo) (s t : service) (e : exn) :
  length (columns s) = length (_columnHeights s) ->
  forEach ps _addPhotoToColumns s = (Throw e, t) ->
  columnIndex t = None.
Proof.
  revert s. induction ps as [|p ps IH]; intros s Hlen; [done|].
  simpl. unfold mbind, M_bind. rewrite addPhotoToColumns_even by done.
  destruct (columnIndex s) as [i|] eqn:Hi.
  - apply IH. simpl. by rewrite !length_alter.
  - by intros [= _ <-].
Qed.

Lemma record_eta (s : service) :
  set_columns (columns s) (set_columnHeights (_columnHeights s) s) = s.
Proof. by destruct s. Qed.

(** The loop of the balancing rule reads and writes the columns and their
    heights only. *)
Lemma forEach_add_congr (ps : list photo) (s1 s2 : service) :
  columns s1 = columns s2 ->
  _columnHeights s1 = _columnHeights s2 ->
  exists r c h,
    forEach ps _addPhotoToColumns s1 = (r, set_columns c (set_columnHeights h s1))
    /\ forEach ps _addPhotoToColumns s2 = (r, set_columns c (set_columnHeights h s2)).
Proof.
  revert s1 s2. induction ps as [|p ps IH]; intros s1 s2 Hc Hh.
  - exists (Ok tt), (columns s1), (_columnHeights s1). simpl. unfold ret.
    split; [by rewrite record_eta|]. by rewrite Hc, Hh, record_eta.
  - simpl. unfold mbind, M_bind. rewrite !addPhotoToColumns_eq.
    unfold columnIndex. rewrite <- Hh, <- Hc.
    destruct (indexOf _ _) as [i|].
    + destruct (columns s1 !! i) as [col|].
      * destruct (IH (place p i s1) (place p i s2)) as (r & c & h & H1 & H2);
          [simpl; by rewrite Hc|simpl; by rewrite Hh|].
        exists r, c, h. rewrite H1, H2. done.
      * exists (Throw TypeError), (columns s1),
          (alter (fun h => js_add h (contribution p)) i (_columnHeights s1)).
        split; [done|]. by rewrite Hc.
    + exists (Throw TypeError), (columns s1), (_columnHeights s1).
      split; [by rewrite record_eta|]. by rewrite Hc, Hh, record_eta.
Qed.

(** [_resetColumns()] reads the column count and the flat list only. *)
Lemma resetColumns_ext (s s' : service) :
  columnCount s = columnCount s' ->
  photos s = photos s' ->
  exists r c h,
    _resetColumns s = (r, set_columns c (set_columnHeights h s))
    /\ _resetColumns s' = (r, set_columns c (set_columnHeights h s')).
Proof.
  intros Hn Hp. rewrite !resetColumns_unfold, <- Hn, <- Hp.
  destruct (forEach_add_congr (photos s)
              (set_columnHeights (replicate (columnCount s) (Fin 0))
                 (set_columns (replicate (columnCount s) []) s))
              (set_columnHeights (replicate (columnCount s) (Fin 0))
                 (set_columns (replicate (columnCount s) []) s')))
    as (r & c & h & H1 & H2); [done..|].
  exists r, c, h. rewrite H1, H2. done.
Qed.

Lemma laid_out_ext (s s' : service) :
  laid_out s ->
  columnCount s' = columnCount s ->
  photos s' = photos s ->
  columns s' = columns s ->
  _columnHeights s' = _columnHeights s ->
  laid_out s'.
Proof.
  unfold laid_out. intros Hs Hn Hp Hc Hh.
  destruct (resetColumns_ext s s') as (r & c & h & H1 & H2); [done..|].
  rewrite H1 in Hs. rewrite H2. simpl in *.
  assert (c = columns s) as -> by by rewrite <- Hs.
  assert (h = _columnHeights s) as -> by by rewrite <- Hs.
  by rewrite <- Hc, <- Hh, record_eta.
Qed.

Lemma resetColumns_laid_out (s : service) : laid_out (_resetColumns s).2.
Proof.
  unfold laid_out.
  destruct (resetColumns_ext s s) as (r & c & h & H1 & _); [done..|].
  destruct (resetColumns_ext s (_resetColumns s).2) as (r' & c' & h' & H1' & H2');
    [by rewrite H1..|].
  rewrite H2'. rewrite H1' at 2. simpl. rewrite H1' at 1. done.
Qed.

Lemma laid_out_even (s : service) :
  laid_out s -> length (columns s) = length (_columnHeights s).
Proof.
  unfold laid_out. rewrite resetColumns_unfold. intros Hs. rewrite <- Hs.
  apply forEach_add_even. simpl. by rewrite !length_replicate.
Qed.

(** A photo that joins the flat list and the columns keeps the layout the
    one a redistribution gives. *)
Lemma laid_out_push_add (p : photo) :
  keeps laid_out (modify (fun this => set_photos (photos this ++ [p]) this) ;;
                  _addPhotoToColumns p).
Proof.
  intros s Hs.
  set (s1 := set_photos (photos s ++ [p]) s).
  pose proof (laid_out_even s Hs) as Hlen.
  change (laid_out (_addPhotoToColumns p s1).2).
  set (s2 := (_addPhotoToColumns p s1).2).
  assert (Hframe : exists c h, s2 = set_columns c (set_columnHeights h s1)).
  { unfold s2. rewrite addPhotoToColumns_eq.
    destruct (columnIndex s1) as [i|]; [destruct (columns s1 !! i)|].
    - by exists (alter (fun col => col ++ [p]) i (columns s1)),
        (alter (fun h => js_add h (contribution p)) i (_columnHeights s1)).
    - by exists (columns s1),
        (alter (fun h => js_add h (contribution p)) i (_columnHeights s1)).
    - exists (columns s1), (_columnHeights s1). by rewrite record_eta. }
  destruct Hframe as (c2 & h2 & Hs2).
  unfold laid_out. rewrite resetColumns_unfold.
  assert (Hn : columnCount s2 = columnCount s) by by rewrite Hs2.
  assert (Hp : photos s2 = photos s ++ [p]) by by rewrite Hs2.
  rewrite Hn, Hp, forEach_app.
  unfold laid_out in Hs. rewrite resetColumns_unfold in Hs.
  set (F := fun t : service =>
              set_columnHeights (replicate (columnCount s) (Fin 0))
                (set_columns (replicate (columnCount s) []) t)) in *.
  change (set_columnHeights _ (set_columns _ s2)) with (F s2).
  change (set_columnHeights _ (set_columns _ s)) with (F s) in Hs.
  destruct (forEach_add_congr (photos s) (F s) (F s2)) as (r & c & h & H1 & H2); [done..|].
  rewrite H1 in Hs. simpl in Hs.
  assert (c = columns s) as -> by by rewrite <- Hs.
  assert (h = _columnHeights s) as -> by by rewrite <- Hs.
  rewrite H2.
  assert (Hs1 : set_columns (columns s) (set_columnHeights (_columnHeights s) (F s2)) = s1).
  { rewrite Hs2. unfold F, s1. by destruct s. }
  rewrite Hs1.
  destruct r as [[]|e].
  - simpl. unfold mbind, M_bind. fold s2.
    by destruct (_addPhotoToColumns p s1) as [[[]|e] s'].
  - simpl.
    assert (Hstuck : columnIndex s1 = None).
    { apply (forEach_add_stuck (photos s) (F s) _ e) in H1; [exact H1|].
      unfold F. simpl. by rewrite !length_replicate. }
    unfold s2. rewrite addPhotoToColumns_even by done. by rewrite Hstuck.
Qed.

Lemma reachable_is_laid_out (coerce : json -> result jsnum) (this : service) :
  reachable coerce this -> laid_out this.
Proof.
  revert this. apply invariant_reachable.
  - intros v s Hs. by apply (laid_out_ext s).
  - intros v s Hs. by apply (laid_out_ext s).
  - intros v s Hs. by apply (laid_out_ext s).
  - intros v s Hs. by apply (laid_out_ext s).
  - intros v s Hs. by apply (laid_out_ext s).
  - apply laid_out_push_add.
  - intros s _. apply (resetColumns_laid_out (set_pagination ∅ (set_photos [] s))).
  - intros n s _. apply resetColumns_laid_out.
  - intros id. apply (resetColumns_laid_out (set_pagination ∅ (set_photos [] (created id)))).
Qed.

(** X10. In every service the public operations lead to from [init()],
    the columns and their heights are exactly what [_resetColumns()]
    computes from the flat list: placing the photos one by one as they
    arrive and redistributing them all give the same layout.  So changing
    the column count and changing it back restores the service. *)
Theorem reachable_laid_out (coerce : json -> result jsnum) (this : service) :
  reachable coerce this ->
  (_resetColumns this).2 = this
  /\ (forall n, (changeColumnCount (columnCount this) (changeColumnCount n this).2).2 = this).
Proof.
  intros Hreach.
  pose proof (reachable_is_laid_out coerce this Hreach) as Hlaid.
  split; [exact Hlaid|]. intros n.
  unfold changeColumnCount at 2. unfold mbind, M_bind, get.
  destruct (Nat.eqb_spec n (columnCount this)) as [->|Hne]; simpl.
  - unfold changeColumnCount, mbind, M_bind, get. by rewrite Nat.eqb_refl.
  - destruct (resetColumns_ext (set_columnCount n this) (set_columnCount n this))
      as (r & c & h & H1 & _); [done..|].
    rewrite H1. simpl.
    unfold changeColumnCount, mbind, M_bind, get. simpl.
    destruct (Nat.eqb_spec (columnCount this) n) as [Heq|_]; [by symmetry in Heq|]. simpl.
    destruct (resetColumns_ext this
                (set_columnCount (columnCount this)
                   (set_columns c (set_columnHeights h (set_columnCount n this)))))
      as (r' & c' & h' & H1' & H2'); [done..|].
    rewrite H2'. unfold laid_out in Hlaid. rewrite H1' in Hlaid. simpl in *.
    rewrite <- Hlaid at 3. by destruct this.
Qed.

Lemma reachable_laid_out_witness :
  let this := perform example_coerce (fun _ => Responded example_search_page) LoadNew
                (init "id") in
  (_resetColumns this).2 = this
  /\ (forall n, (changeColumnCount (columnCount this) (changeColumnCount n this).2).2 = this).
Proof.
  apply (reachable_laid_out example_coerce).
  apply reachable_perform, reachable_init.
Defined.

(** ** The order within a column *)

Lemma sublist_snoc {A : Type} (l k : list A) (x : A) :
  sublist l k -> sublist (l ++ [x]) (k ++ [x]).
Proof. intros H. apply sublist_app; [done|]. by apply sublist_skip, sublist_nil. Qed.

Lemma arrival_order_place (p : photo) (i : nat) (done : list photo) (cols : list (list photo)) :
  Forall (fun col => sublist col done) cols ->
  Forall (fun col => sublist col (done ++ [p])) (alter (fun col => col ++ [p]) i cols).
Proof.
  intros H. apply Forall_lookup. intros j col Hj.
  destruct (decide (i = j)) as [<-|Hij].
  - rewrite list_lookup_alter_eq in Hj.
    destruct (cols !! i) as [col0|] eqn:E; simpl in Hj; [|done]. injection Hj as <-.
    apply sublist_snoc. by eapply (Forall_lookup_1 _ _ _ _ H).
  - rewrite list_lookup_alter_ne in Hj by done.
    apply sublist_inserts_r. by eapply (Forall_lookup_1 _ _ _ _ H).
Qed.

Lemma addPhotoToColumns_order (p : photo) (done : list photo) (s : service) :
  Forall (fun col => sublist col done) (columns s) ->
  Forall (fun col => sublist col (done ++ [p])) (columns (_addPhotoToColumns p s).2).
Proof.
  intros H. rewrite addPhotoToColumns_eq.
  destruct (columnIndex s) as [i|]; [destruct (columns s !! i)|]; simpl.
  - by apply arrival_order_place.
  - eapply Forall_impl; [exact H|]. intros col Hcol. by apply sublist_inserts_r.
  - eapply Forall_impl; [exact H|]. intros col Hcol. by apply sublist_inserts_r.
Qed.

Lemma addPhotoToColumns_photos (p : photo) (s : service) :
  photos (_addPhotoToColumns p s).2 = photos s.
Proof.
  rewrite addPhotoToColumns_eq.
  by destruct (columnIndex s) as [i|]; [destruct (columns s !! i)|].
Qed.

Lemma forEach_add_order (rest done : list photo) (s : service) :
  Forall (fun col => sublist col done) (columns s) ->
  Forall (fun col => sublist col (done ++ rest))
    (columns (forEach rest _addPhotoToColumns s).2).
Proof.
  revert done s. induction rest as [|p rest IH]; intros done s H.
  - by rewrite app_nil_r.
  - simpl. unfold mbind, M_bind.
    pose proof (addPhotoToColumns_order p done s H) as Hstep.
    destruct (_addPhotoToColumns p s) as [[[]|e] s']; simpl in *.
    + replace (done ++ p :: rest) with ((done ++ [p]) ++ rest) by by rewrite <- app_assoc.
      by apply IH.
    + eapply Forall_impl; [exact Hstep|]. intros col Hcol.
      replace (done ++ p :: rest) with ((done ++ [p]) ++ rest) by by rewrite <- app_assoc.
      by apply sublist_inserts_r.
Qed.

Lemma resetColumns_order (s : service) : arrival_order (_resetColumns s).2.
Proof.
  unfold arrival_order.
  destruct (resetColumns_ext s s) as (r & c & h & H1 & _); [done..|].
  assert (Hp : photos (_resetColumns s).2 = photos s) by by rewrite H1.
  rewrite Hp. rewrite resetColumns_unfold.
  apply (forEach_add_order (photos s) []). simpl.
  apply Forall_forall. intros col Hcol%elem_of_replicate. destruct Hcol as [-> _].
  apply sublist_nil_l.
Qed.

(** X11. In every service the public operations lead to from [init()],
    each column lists its photos in the order in which the flat list holds
    them. *)
Theorem columns_keep_arrival_order (coerce : json -> result jsnum) (this : service) :
  reachable coerce this ->
  forall col, col ∈ columns this -> sublist col (photos this).
Proof.
  intros Hreach. apply Forall_forall. revert this Hreach.
  apply (invariant_reachable arrival_order); try (by intros v s Hs).
  - intros p s Hs. unfold mbind, M_bind, modify. simpl.
    unfold arrival_order. rewrite addPhotoToColumns_photos. simpl.
    by apply addPhotoToColumns_order.
  - intros s _. apply (resetColumns_order (set_pagination ∅ (set_photos [] s))).
  - intros n s _. apply resetColumns_order.
  - intros id. apply (resetColumns_order (set_pagination ∅ (set_photos [] (created id)))).
Qed.

Lemma columns_keep_arrival_order_witness :
  let this := perform example_coerce (fun _ => Responded example_search_page) LoadNew
                (init "id") in
  Forall (fun col => sublist col (photos this)) (columns this).
Proof.
  intros this. apply Forall_forall.
  apply (columns_keep_arrival_order example_coerce).
  apply reachable_perform, reachable_init.
Defined.

(** ** The first row *)

Lemma column_height_single (p : photo) (c : Q) :
  contribution p = Fin c -> column_height [p] = Fin (0 + c).
Proof. unfold column_height. simpl. by intros ->. Qed.

(** The heights while the first row fills: the columns that hold a photo
    are higher than zero, the others are at zero. *)
Lemma first_row_heights (done : list photo) (m : nat) (j : nat) (hj : jsnum) :
  Forall (fun p => positive (ratio p) = true) done ->
  (column_height <$> (((fun p => [p]) <$> done) ++ replicate m [])) !! j = Some hj ->
  ((j < length done)%nat /\ exists c, hj = Fin c /\ (0 < c)%Q)
  \/ ((length done <= j)%nat /\ hj = Fin 0).
Proof.
  intros Hpos. rewrite fmap_app, <- list_fmap_compose, fmap_replicate.
  destruct (decide (j < length done)%nat) as [Hlt|Hge].
  - rewrite lookup_app_l by by rewrite length_fmap.
    rewrite list_lookup_fmap.
    destruct (done !! j) as [q|] eqn:Hq; simpl; [|done]. intros [= <-].
    left. split; [done|].
    pose proof (Forall_lookup_1 _ _ _ _ Hpos Hq) as Hq'. simpl in Hq'.
    destruct (positive_contribution q Hq') as (c & Hc & Hc0).
    exists (0 + c)%Q. split; [by apply column_height_single|lra].
  - rewrite lookup_app_r by (rewrite length_fmap; lia).
    intros Hj%lookup_replicate. right. split; [lia|]. by destruct Hj.
Qed.

Lemma first_row_aux (rest done : list photo) (m : nat) (s : service) :
  Forall (fun p => positive (ratio p) = true) done ->
  Forall (fun p => positive (ratio p) = true) rest ->
  (length rest <= m)%nat ->
  columns s = ((fun p => [p]) <$> done) ++ replicate m [] ->
  _columnHeights s = column_height <$> columns s ->
  exists s',
    forEach rest _addPhotoToColumns s = (Ok tt, s')
    /\ columns s' = ((fun p => [p]) <$> (done ++ rest)) ++ replicate (m - length rest) []
    /\ _columnHeights s' = column_height <$> columns s'.
Proof.
  revert done m s. induction rest as [|p rest IH]; intros done m s Hdone Hrest Hm Hc Hh.
  - exists s. simpl. by rewrite app_nil_r, Nat.sub_0_r.
  - destruct m as [|m]; [simpl in Hm; lia|].
    apply Forall_cons in Hrest as [Hp Hrest].
    assert (Hleast : least_loaded (length done) (_columnHeights s)).
    { rewrite Hh, Hc. exists (Fin 0). split; [|split].
      - rewrite fmap_app, lookup_app_r by (rewrite !length_fmap; lia).
        rewrite !length_fmap, Nat.sub_diag. done.
      - intros j hj Hj.
        destruct (first_row_heights done (S m) j hj Hdone Hj)
          as [(_ & c & -> & Hc0)|(_ & ->)]; simpl; qbool.
      - intros j hj Hlt Hj.
        destruct (first_row_heights done (S m) j hj Hdone Hj)
          as [(_ & c & -> & Hc0)|(Hge & _)]; [simpl; qbool|lia]. }
    destruct (addPhotoToColumns_step p s) as (i & Hi & Hadd).
    { rewrite Hh, Hc. intros Hnil%(f_equal length).
      rewrite length_fmap, length_app, length_replicate in Hnil. simpl in Hnil. lia. }
    { rewrite Hh, Hc. apply Forall_forall. intros hj Hin.
      apply list_elem_of_lookup in Hin as [j Hj].
      by destruct (first_row_heights done (S m) j hj Hdone Hj)
        as [(_ & c & -> & _)|(_ & ->)]. }
    { by rewrite Hh, length_fmap. }
    assert (i = length done) as -> by by eapply least_loaded_unique.
    destruct (IH (done ++ [p]) m (place p (length done) s)) as (s' & Hrun & Hc' & Hh').
    + apply Forall_app. split; [done|]. by apply Forall_singleton.
    + done.
    + simpl in Hm. lia.
    + simpl. rewrite Hc.
      replace (length done) with (length ((fun q : photo => [q]) <$> done) + 0)%nat
        by (rewrite length_fmap; lia).
      rewrite alter_app_r. simpl. rewrite fmap_app. simpl.
      by rewrite <- app_assoc.
    + by apply place_sums.
    + exists s'. simpl. unfold mbind, M_bind. rewrite Hadd, Hrun.
      split; [done|]. split; [|done].
      rewrite Hc'. by rewrite <- app_assoc.
Qed.

(** X12. On empty columns, photos of positive ratio that are no more than
    the columns fill the first row from the left: the first photo goes to
    the first column, the second to the second, and so on; the columns that
    remain stay empty. *)
Theorem first_row_left_to_right (n : nat) (ps : list photo) (this : service) :
  fresh_columns n this ->
  Forall (fun p => positive (ratio p) = true) ps ->
  (length ps <= n)%nat ->
  exists this',
    forEach ps _addPhotoToColumns this = (Ok tt, this')
    /\ columns this' = ((fun p => [p]) <$> ps) ++ replicate (n - length ps) [].
Proof.
  intros [Hc Hh] Hps Hn.
  destruct (first_row_aux ps [] n this) as (this' & Hrun & Hc' & _); try done.
  - by rewrite Hh, Hc, fmap_replicate.
  - by exists this'.
Qed.

Lemma first_row_left_to_right_witness :
  exists this',
    forEach [example_photo 1; example_photo (1#2)] _addPhotoToColumns (init "id")
    = (Ok tt, this')
    /\ columns this'
       = ((fun p => [p]) <$> [example_photo 1; example_photo (1#2)])
         ++ replicate (3 - length [example_photo 1; example_photo (1#2)]) [].
Proof.
  apply (first_row_left_to_right 3 [example_photo 1; example_photo (1#2)] (init "id")).
  - done.
  - by repeat constructor.
  - simpl. lia.
Defined.

(** ** Link headers that are well formed *)

Lemma append_nil_l (s : string) : ("" ++ s)%string = s.
Proof. done. Qed.

Lemma append_nil_r (s : string) : (s ++ "")%string = s.
Proof. induction s as [|c s IH]; [done|]. by rewrite append_cons, IH. Qed.

Lemma occurrences_app (c : ascii) (a b : string) :
  occurrences c (a ++ b)%string = (occurrences c a + occurrences c b)%nat.
Proof.
  induction a as [|x a IH]; [done|]. rewrite append_cons. simpl. rewrite IH. lia.
Qed.

(** A text is split at the first occurrence of a character in one way. *)
Lemma first_split (c : ascii) (a a' b b' : string) :
  occurrences c a = 0%nat -> occurrences c a' = 0%nat ->
  (a ++ String c b)%string = (a' ++ String c b')%string ->
  a = a' /\ b = b'.
Proof.
  revert a'. induction a as [|x a IH]; intros [|y a']; simpl; intros Ha Ha'.
  - by intros [= ->].
  - rewrite append_nil_l, append_cons. intros [= <- _].
    rewrite Ascii.eqb_refl in Ha'. lia.
  - rewrite append_nil_l, append_cons. intros [= -> _].
    rewrite Ascii.eqb_refl in Ha. lia.
  - rewrite !append_cons. intros [= -> Heq].
    destruct (IH a') as [-> ->]; [lia..|done|done].
Qed.

Section Longest.

Variable rest : string -> option (list string).

(** The greedy group takes the longest text after which the rest matches:
    when the rest matches nowhere further on, the group is the text before. *)
Lemma greedy_exact (cap s : string) (caps : list string) :
  no_line_terminator cap ->
  rest s = Some caps ->
  (forall x s', x <> "" -> s = (x ++ s')%string -> rest s' = None) ->
  greedy rest (cap ++ s)%string = Some (cap :: caps).
Proof.
  intros Hcap Hrest Hlast. induction cap as [|c cap IH].
  - rewrite append_nil_l. destruct s as [|c s]; simpl; rewrite Hrest; [done|].
    destruct (is_line_terminator c); [done|].
    destruct (greedy rest s) as [l|] eqn:Hg; [|done].
    apply greedy_sound in Hg as (cap & caps' & s' & -> & -> & _ & Hs').
    rewrite (Hlast (String c cap) s') in Hs'; done.
  - apply no_line_terminator_cons in Hcap as [Hc Hcap].
    rewrite append_cons. simpl. by rewrite Hc, (IH Hcap).
Qed.

End Longest.

Lemma strip_prefix_app (text s : string) : strip_prefix text (text ++ s)%string = Some s.
Proof. by apply strip_prefix_Some. Qed.

(** The pieces after the first group, at a text that holds the rest of an
    entry. *)
Lemma match_relation (rel after : string) :
  no_line_terminator rel ->
  occurrences quote rel = 0%nat ->
  occurrences quote after = 0%nat ->
  match_pieces [DotStar; Lit dquote] (rel ++ dquote ++ after)%string = Some [rel].
Proof.
  intros Hrel Hq Hafter.
  change (match_pieces (DotStar :: ?r) ?s) with (greedy (match_pieces r) s).
  assert (Hlit : forall s, match_pieces [Lit dquote] s
                           = match strip_prefix dquote s with
                             | Some _ => Some []
                             | None => None
                             end) by done.
  apply greedy_exact; [done|by rewrite Hlit, strip_prefix_app|].
  intros x s' Hx Heq. rewrite Hlit.
  destruct (strip_prefix dquote s') as [t|] eqn:Ht; [|done]. exfalso.
  apply strip_prefix_Some in Ht as ->.
  assert (Hocc : occurrences quote (dquote ++ after)%string
                 = occurrences quote (x ++ dquote ++ t)%string) by by rewrite Heq.
  rewrite !occurrences_app in Hocc. simpl in Hocc. rewrite Hafter in Hocc.
  destruct x as [|y x]; [done|].
  unfold dquote in Heq. rewrite !append_cons, append_nil_l in Heq.
  injection Heq as <- _. simpl in Hocc. lia.
Qed.

Lemma match_link_entry (url rel after : string) :
  no_line_terminator url ->
  no_line_terminator rel ->
  occurrences quote rel = 0%nat ->
  occurrences quote after = 0%nat ->
  match_pieces linkRegex ("<" ++ url ++ ">; rel=" ++ dquote ++ rel ++ dquote ++ after)%string
  = Some [url; rel].
Proof.
  intros Hurl Hrel Hq Hafter.
  unfold linkRegex.
  change (match_pieces (Lit "<" :: ?r) ("<" ++ ?s)%string) with (match_pieces r s).
  set (lit := (">; rel=" ++ dquote)%string).
  change (match_pieces (DotStar :: ?r) ?s) with (greedy (match_pieces r) s).
  replace (url ++ ">; rel=" ++ dquote ++ rel ++ dquote ++ after)%string
    with (url ++ lit ++ rel ++ dquote ++ after)%string
    by (unfold lit; by rewrite (append_assoc ">; rel=")).
  assert (Hhere : match_pieces [Lit lit; DotStar; Lit dquote]
                    (lit ++ rel ++ dquote ++ after)%string = Some [rel]).
  { change (match_pieces (Lit lit :: ?r) ?s)
      with (match strip_prefix lit s with Some s' => match_pieces r s' | None => None end).
    rewrite strip_prefix_app. by apply match_relation. }
  apply greedy_exact; [done|done|].
  intros x s' Hx Heq.
  destruct (match_pieces [Lit lit; DotStar; Lit dquote] s') as [l|] eqn:Hl; [|done].
  exfalso. apply match_pieces_sound in Hl.
  inversion Hl as [|? ? s1 ? H1|]; subst; clear Hl.
  inversion H1 as [| |? cap s2 caps2 Hcap H2]; subst; clear H1.
  inversion H2 as [|? ? s3 ? H3|]; subst; clear H2.
  assert (Hocc : occurrences quote (lit ++ rel ++ dquote ++ after)%string
                 = occurrences quote (x ++ lit ++ cap ++ dquote ++ s3)%string)
    by by rewrite Heq.
  rewrite !occurrences_app in Hocc.
  change (occurrences quote lit) with 1%nat in Hocc.
  change (occurrences quote dquote) with 1%nat in Hocc.
  rewrite Hq, Hafter in Hocc.
  assert (Hx0 : occurrences quote x = 0%nat) by lia.
  unfold lit, dquote in Heq. clear Hhere. clearbody lit.
  set (pre := ">; rel=") in Heq.
  assert (Hpre : occurrences quote pre = 0%nat) by done.
  assert (Hbody : pre = ">; rel=") by done.
  clearbody pre.
  rewrite !append_assoc, !append_cons, !append_nil_l, <- (append_assoc x pre) in Heq.
  apply (first_split quote) in Heq as [Heq _];
    [|done|by rewrite occurrences_app, Hx0, Hpre].
  subst pre.
  assert (Hgt : occurrences ">" (">; rel=")%string = occurrences ">" (x ++ ">; rel=")%string)
    by by rewrite <- Heq.
  rewrite occurrences_app in Hgt.
  destruct x as [|y x]; [done|].
  rewrite append_cons in Heq. injection Heq as <- _. simpl in Hgt. lia.
Qed.

Lemma regex_exec_here (pieces : list re_piece) (s : string) (caps : list string) :
  match_pieces pieces s = Some caps -> regex_exec pieces s = Some caps.
Proof. intros H. destruct s; simpl; by rewrite H. Qed.

(** The search of [exec] steps over what stands before the first angle
    bracket. *)
Lemma regex_exec_skip (before s : string) :
  occurrences "<" before = 0%nat ->
  is_Some (match_pieces linkRegex s) ->
  regex_exec linkRegex (before ++ s)%string = match_pieces linkRegex s.
Proof.
  intros Hbefore [caps Hs]. induction before as [|c before IH].
  - rewrite append_nil_l, Hs. by apply regex_exec_here.
  - simpl in Hbefore. destruct (Ascii.eqb c "<") eqn:Hc; [lia|].
    rewrite append_cons.
    change (regex_exec linkRegex (String c ?t))
      with (match match_pieces linkRegex (String c t) with
            | Some caps => Some caps
            | None => regex_exec linkRegex t
            end).
    assert (Hnone : forall t, match_pieces linkRegex (String c t) = None).
    { intros t. unfold linkRegex.
      cbn [match_pieces strip_prefix]. by rewrite Ascii.eqb_sym, Hc. }
    rewrite Hnone. apply IH. lia.
Qed.

(** X13. The expression of [_extractPagination] reads an entry back: on a
    text that holds, after a part without less-than sign, a less-than sign,
    a URL, a greater-than sign followed by [; rel=] and a double quote, a
    relation and a double quote, then a rest, the groups are the URL and the
    relation, provided that URL and relation hold no line terminator and
    that neither the relation nor the rest holds a double quote.  The URL
    may hold any other character, also the text that closes it. *)
Theorem link_entry_parsed (before url rel after : string) :
  occurrences "<" before = 0%nat ->
  no_line_terminator url ->
  no_line_terminator rel ->
  occurrences quote rel = 0%nat ->
  occurrences quote after = 0%nat ->
  regex_exec linkRegex
    (before ++ "<" ++ url ++ ">; rel=" ++ dquote ++ rel ++ dquote ++ after)%string
  = Some [url; rel].
Proof.
  intros Hbefore Hurl Hrel Hq Hafter.
  pose proof (match_link_entry url rel after Hurl Hrel Hq Hafter) as Hm.
  rewrite regex_exec_skip; [done|done|]. by rewrite Hm.
Qed.

Lemma link_entry_parsed_witness :
  regex_exec linkRegex
    (" " ++ "<" ++ ("https://api.unsplash.com/photos?page=2>; rel=" ++ dquote ++ "prev")
     ++ ">; rel=" ++ dquote ++ "next" ++ dquote ++ "; title=next page")%string
  = Some [("https://api.unsplash.com/photos?page=2>; rel=" ++ dquote ++ "prev")%string; "next"].
Proof.
  apply (link_entry_parsed " "
           ("https://api.unsplash.com/photos?page=2>; rel=" ++ dquote ++ "prev")%string
           "next" "; title=next page").
  - reflexivity.
  - unfold no_line_terminator. by vm_compute; repeat constructor.
  - unfold no_line_terminator. by vm_compute; repeat constructor.
  - reflexivity.
  - reflexivity.
Defined.

(** ** Link headers read back *)

Lemma split_commas_whole (a : string) :
  occurrences "," a = 0%nat -> split_commas a = [a].
Proof.
  induction a as [|c a IH]; [done|]. simpl.
  destruct (Ascii.eqb c ","); [lia|]. intros Ha. by rewrite IH.
Qed.

Lemma split_commas_app (a b : string) :
  occurrences "," a = 0%nat ->
  split_commas (a ++ "," ++ b)%string = a :: split_commas b.
Proof.
  induction a as [|c a IH]; [done|]. simpl.
  destruct (Ascii.eqb c ","); [lia|]. intros Ha. by rewrite IH.
Qed.

Lemma link_entry_commas (url rel : string) :
  occurrences "," url = 0%nat -> occurrences "," rel = 0%nat ->
  occurrences "," (link_entry url rel) = 0%nat.
Proof.
  intros Hu Hr. unfold link_entry. rewrite !occurrences_app, Hu, Hr. done.
Qed.

(** The texts [split(',')] cuts a header into: the entries, each but the
    first behind a blank. *)
Lemma split_commas_header (pad : string) (link : string * string)
    (links : list (string * string)) :
  occurrences "," pad = 0%nat ->
  Forall plain_link (link :: links) ->
  split_commas (pad ++ link_header (link :: links))%string
  = (pad ++ link_entry link.1 link.2)%string
    :: ((fun l => (" " ++ link_entry l.1 l.2)%string) <$> links).
Proof.
  revert pad link. induction links as [|link' links IH]; intros pad [url rel] Hpad Hall.
  - apply Forall_cons in Hall as [(_ & _ & Hu & Hr & _) _]. simpl.
    apply split_commas_whole. rewrite occurrences_app, Hpad.
    by rewrite link_entry_commas.
  - apply Forall_cons in Hall as [(_ & _ & Hu & Hr & _) Hall].
    change (link_header ((url, rel) :: link' :: links))
      with (link_entry url rel ++ ", " ++ link_header (link' :: links))%string.
    change (", " ++ ?s)%string with ("," ++ " " ++ s)%string.
    rewrite <- append_assoc, split_commas_app
      by (rewrite occurrences_app, Hpad; by rewrite link_entry_commas).
    by rewrite (IH " " link').
Qed.

(** The loop of [_extractPagination] on an entry as the API writes it. *)
Lemma collect_links_entry (pad : string) (link : string * string) (rest : list string)
    (pagination : gmap string string) :
  occurrences "<" pad = 0%nat ->
  plain_link link ->
  collect_links ((pad ++ link_entry link.1 link.2)%string :: rest) pagination
  = collect_links rest (<[link.2 := link.1]> pagination).
Proof.
  intros Hpad (Hu & Hr & _ & _ & Hq & Hproto). destruct link as [url rel]. simpl in *.
  pose proof (match_link_entry url rel "" Hu Hr Hq eq_refl) as Hm.
  rewrite append_nil_r in Hm. fold (link_entry url rel) in Hm.
  assert (Hexec : regex_exec linkRegex (pad ++ link_entry url rel)%string = Some [url; rel]).
  { rewrite regex_exec_skip; [done|done|by rewrite Hm]. }
  cbn [collect_links]. rewrite Hexec.
  by destruct (String.eqb_spec rel "__proto__").
Qed.

Lemma collect_links_padded (links : list (string * string))
    (pagination : gmap string string) :
  Forall plain_link links ->
  collect_links ((fun l => (" " ++ link_entry l.1 l.2)%string) <$> links) pagination
  = Ok (foldl (fun pagination link => <[link.2 := link.1]> pagination) pagination links).
Proof.
  revert pagination. induction links as [|link links IH]; intros pagination Hall; [done|].
  apply Forall_cons in Hall as [Hlink Hall].
  rewrite fmap_cons, collect_links_entry by done. by apply IH.
Qed.

(** X14. A Link header written as the API writes it, the entries separated
    by a comma and a blank, is read back by [_extractPagination]: the
    pagination state becomes the map from each relation to its URL, a later
    entry replacing an earlier one of the same relation. *)
Theorem link_header_read_back (response : Response) (links : list (string * string))
    (this : service) :
  links <> [] ->
  Forall plain_link links ->
  headers response !! "link" = Some (link_header links) ->
  _extractPagination response this = (Ok response, set_pagination (links_map links) this).
Proof.
  intros Hsome Hall Hlink.
  destruct links as [|link links]; [done|].
  assert (Hentries : link_entries (Some (link_header (link :: links)))
                     = link_entry link.1 link.2
                       :: ((fun l => (" " ++ link_entry l.1 l.2)%string) <$> links)).
  { pose proof (split_commas_header "" link links eq_refl Hall) as Hsplit.
    rewrite !append_nil_l in Hsplit. rewrite <- Hsplit.
    destruct link as [url rel].
    assert (Hhead : exists t, link_header ((url, rel) :: links) = String "<" t).
    { destruct links; simpl; unfold link_entry; rewrite ?append_assoc, append_cons; eauto. }
    destruct Hhead as [t ->]. done. }
  apply Forall_cons in Hall as [Hlink1 Hall].
  unfold _extractPagination, lift, mbind, M_bind. rewrite Hlink, Hentries.
  rewrite <- (append_nil_l (link_entry link.1 link.2)).
  rewrite (collect_links_entry "" link) by done.
  by rewrite collect_links_padded.
Qed.

Lemma link_header_read_back_witness :
  let links := [("https://api.unsplash.com/search/photos?page=9", "last");
                ("https://api.unsplash.com/search/photos?page=2", "next")] in
  _extractPagination example_search_page (init "id")
  = (Ok example_search_page, set_pagination (links_map links) (init "id")).
Proof.
  intros links.
  apply (link_header_read_back example_search_page links (init "id")).
  - done.
  - unfold plain_link, no_line_terminator.
    repeat constructor; try (by vm_compute; repeat constructor); by vm_compute.
  - reflexivity.
Defined.

(** ** Bursts of typing *)

Lemma eqb_false (a b : string) : a <> b -> String.eqb a b = false.
Proof. intros H. by destruct (String.eqb_spec a b). Qed.

(** A call with a new term, then a wait shorter than the debounce: nothing
    is sent, and the task waits for the new term. *)
Lemma typing_step (term : string) (wait : nat) (w : world) :
  term <> searchTerm (svc w) -> term <> "" -> (wait < DEBOUNCE_MS)%nat ->
  run [CallUpdateSearch term; Elapse wait] w
  = mkWorld (set_search_isRunning true (cleared (set_searchTerm term (svc w))))
      (clock w + wait) (Some (term, (clock w + DEBOUNCE_MS)%nat)).
Proof.
  intros Hnew Hterm Hwait. unfold run. simpl.
  rewrite call_updateSearch_new by by apply eqb_false.
  erewrite elapse_wait; [done|done|simpl; lia].
Qed.

Lemma reset_set (term : string) (s : service) :
  (modify (set_searchTerm term) ;; _reset) s = (Ok tt, cleared (set_searchTerm term s)).
Proof. done. Qed.




(** A call that clears the search box while no load runs: the list is
    reset and the request for the listing leaves; the task [_search] is not
    touched. *)
Lemma call_updateSearch_clear (w : world) :
  searchTerm (svc w) <> "" ->
  _loadingTasks_isRunning (svc w) = false ->
  call_updateSearch "" w
  = mkWorld (prepared (Some load_url)
               (set_loadingTasks_isRunning true (cleared (set_searchTerm "" (svc w)))))
      (clock w) (debounce w).
Proof.
  intros Hterm Hidle. unfold call_updateSearch.
  rewrite (eqb_false "" (searchTerm (svc w))) by done.
  rewrite reset_set. cbn [negb String.eqb]. cbv iota.
  unfold perform_loadNew. cbn [svc clock debounce].
  replace (_loadingTasks_isRunning (cleared (set_searchTerm "" (svc w)))) with false by done.
  reflexivity.
Qed.

(** X16. Clearing the search box does not cancel a search that waits: a
    call with a new term and then, within the debounce time, a call with the
    empty term while no load runs send the request for the listing at once
    and, once the debounce time of the first call is over, the search for
    the term that was cleared; the URL of a retry is then that of the
    search. *)
Theorem cleared_search_still_fires (w : world) (term : string) (d1 d2 : nat) :
  term <> searchTerm (svc w) ->
  term <> "" ->
  _loadingTasks_isRunning (svc w) = false ->
  (d1 < DEBOUNCE_MS)%nat ->
  (DEBOUNCE_MS <= d1 + d2)%nat ->
  let w' := run [CallUpdateSearch term; Elapse d1; CallUpdateSearch ""; Elapse d2] w in
  sent (svc w')
  = sent (svc w) ++ [request_for (Some load_url) (svc w);
                     request_for (Some (search_url term)) (svc w)]
  /\ searchTerm (svc w') = ""
  /\ _lastRequestUrl (svc w') = Some (search_url term).
Proof.
  intros Hnew Hterm Hidle Hd1 Hd2 w'.
  assert (Hw' : w' = elapse d2 (call_updateSearch ""
                       (run [CallUpdateSearch term; Elapse d1] w))) by done.
  rewrite (typing_step term d1 w) in Hw' by done.
  rewrite call_updateSearch_clear in Hw' by done.
  rewrite (elapse_fire d2 _ term (clock w + DEBOUNCE_MS)) in Hw' by (try done; simpl; lia).
  rewrite Hw'. cbn [svc].
  split; [|done].
  unfold prepared at 1. cbn [sent set_sent].
  unfold prepared at 1. cbn [sent set_sent].
  by rewrite <- app_assoc.
Qed.

Lemma cleared_search_still_fires_witness :
  let w := mkWorld (init "id") 0 None in
  let w' := run [CallUpdateSearch "sea"; Elapse 200; CallUpdateSearch ""; Elapse 400] w in
  sent (svc w')
  = sent (svc w) ++ [request_for (Some load_url) (svc w);
                     request_for (Some (search_url "sea")) (svc w)]
  /\ searchTerm (svc w') = ""
  /\ _lastRequestUrl (svc w') = Some (search_url "sea").
Proof.
  apply (cleared_search_still_fires (mkWorld (init "id") 0 None) "sea" 200 400);
    try done; unfold DEBOUNCE_MS; lia.
Defined.

(** ** Pages, one after the other *)




(** X18. The pagination state is replaced, not merged: after a successful
    page whose Link header holds no [next] link, [loadNextPage()] rejects
    and sends nothing, even if a [next] link was stored before. *)
Theorem last_page_exhausts (coerce : json -> result jsnum) (net net' : request -> fetched)
    (url : option string) (this : service) (r : Response) (links : gmap string string)
    (j : json) (items : list json) :
  net (request_for url this) = Responded r ->
  ok_status r = true ->
  collect_links (link_entries (headers r !! "link")) ∅ = Ok links ->
  links !! "next" = None ->
  body_json r = Some j ->
  (j = JArr items
   \/ exists props, j = JObj props /\ get_prop "results" props = Some (JArr items)) ->
  Forall (fun item => photo_record item = true) items ->
  finite_layout this ->
  concat (columns this) ≡ₚ photos this ->
  photos this <> [] ->
  _search_isRunning this = false ->
  let this' := (_makeRequest coerce net url this).2 in
  loadNextPage coerce net' this' = (Ok (Rejected RejectedUndefined), this')
  /\ sent this' = sent this ++ [request_for url this].
Proof.
  intros Hnet Hok Hlinks Hnext Hbody Hj Hitems Hlayout Hperm Hphotos Hsearch this'.
  assert (Hflag : _search_isRunning this' = false)
    by (unfold this'; by rewrite (makeRequest_blind _search_isRunning) by blind).
  assert (Hsent : sent this' = sent this ++ [request_for url this])
    by (unfold this'; by rewrite (makeRequest_blind sent) by blind).
  split; [|done].
  destruct (makeRequest_settle_page coerce r links j items (prepared url this))
    as (s' & Hrun & _ & Hpg & Hps & _); try done.
  assert (this' = s') as Hs' by (unfold this'; by rewrite makeRequest_eq, Hnet, Hrun).
  clearbody this'. subst s'.
  unfold loadNextPage, mbind, M_bind, get. rewrite Hflag.
  destruct (photos this') as [|p ps] eqn:Hphotos'.
  { simpl in Hps. symmetry in Hps. apply app_eq_nil in Hps as [? _]. done. }
  unfold pagination_next. by rewrite Hpg, Hnext.
Qed.

Lemma last_page_exhausts_witness :
  let this := (loadNew example_coerce (fun _ => Responded example_search_page) (init "id")).2 in
  let this' := (_makeRequest example_coerce (fun _ => Responded example_page)
                  (Some "https://api.unsplash.com/search/photos?page=2") this).2 in
  loadNextPage example_coerce (fun _ => Responded example_page) this'
  = (Ok (Rejected RejectedUndefined), this')
  /\ sent this'
     = sent this
       ++ [request_for (Some "https://api.unsplash.com/search/photos?page=2") this].
Proof.
  intros this.
  eapply (last_page_exhausts example_coerce (fun _ => Responded example_page)
            (fun _ => Responded example_page)
            (Some "https://api.unsplash.com/search/photos?page=2") this example_page ∅).
  - reflexivity.
  - reflexivity.
  - reflexivity.
  - reflexivity.
  - reflexivity.
  - by left.
  - by repeat constructor.
  - split; [done|]. split; [|done]. by repeat constructor.
  - vm_compute. apply Permutation_refl.
  - done.
  - reflexivity.
Defined.

(** ** Pages that hold something else than records *)





(** ** Witnesses *)

Lemma rate_limit_message_recorded_witness :
  _makeRequest example_coerce (fun _ => Responded example_rate_limited_text)
    (Some load_url) (init "id")
  = (Ok tt, set_error (JStr RATE_LIMIT_MESSAGE) (prepared (Some load_url) (init "id"))).
Proof.
  apply (rate_limit_message_recorded example_coerce
           (fun _ => Responded example_rate_limited_text) (Some load_url) (init "id")
           example_rate_limited_text None); reflexivity.
Defined.

Lemma reachable_consistent_witness :
  consistent
    (perform example_coerce (fun _ => Responded example_broken_page) LoadNextPage
       (perform example_coerce (fun _ => Responded example_page) (ChangeColumnCount 2)
          (init "id"))).
Proof.
  apply (reachable_consistent example_coerce).
  apply reachable_perform, reachable_perform, reachable_init.
Defined.

(** ** A height that is not a number *)

Lemma Math_min_nan (l : list jsnum) : NaN ∈ l -> Math_min l = NaN.
Proof.
  induction l as [|a l IH]; [by intros ?%elem_of_nil|].
  intros [<-|Hin]%elem_of_cons; simpl; [done|].
  rewrite (IH Hin). unfold js_min2. simpl. by rewrite orb_true_r.
Qed.

Lemma indexOf_nan (l : list jsnum) : indexOf NaN l = None.
Proof.
  induction l as [|a l IH]; [done|]. simpl. rewrite IH. by destruct a.
Qed.

Lemma js_add_nan (h c : jsnum) : js_is_nan c = true -> js_add h c = NaN.
Proof. destruct c; try done. by destruct h. Qed.

(** X22. A photo whose contribution is not a number is placed like any
    other, in the least loaded column, whose height is NaN from then on;
    after that no photo can be placed: every later run of the balancing
    rule throws at its first photo and leaves the layout as it is. *)
Theorem nan_height_blocks_layout (p : photo) (this : service) :
  finite_layout this ->
  js_is_nan (contribution p) = true ->
  exists i this',
    _addPhotoToColumns p this = (Ok tt, this')
    /\ this' = place p i this
    /\ _columnHeights this' !! i = Some NaN
    /\ forall ps, ps <> [] -> forEach ps _addPhotoToColumns this' = (Throw TypeError, this').
Proof.
  intros Hlayout Hnan.
  destruct Hlayout as (Hne & Hfin & Hlen).
  destruct (addPhotoToColumns_step p this Hne (finite_no_nan _ Hfin) Hlen)
    as (i & Hleast & Hadd).
  exists i, (place p i this). split; [done|]. split; [done|].
  pose proof (least_loaded_lt _ _ Hleast) as Hi.
  destruct (lookup_lt_is_Some_2 _ _ Hi) as [h Hh].
  assert (Hat : _columnHeights (place p i this) !! i = Some NaN).
  { simpl. rewrite list_lookup_alter_eq, Hh. simpl. by rewrite js_add_nan. }
  split; [done|]. intros ps Hps.
  assert (Hstuck : columnIndex (place p i this) = None).
  { unfold columnIndex. rewrite Math_min_nan; [apply indexOf_nan|].
    by eapply list_elem_of_lookup_2. }
  destruct ps as [|q ps]; [done|]. simpl. unfold mbind, M_bind.
  rewrite addPhotoToColumns_even, Hstuck; [done|].
  simpl. by rewrite !length_alter.
Qed.

Lemma nan_height_blocks_layout_witness :
  exists i this',
    _addPhotoToColumns (photo_of (example_record 0 0)) (init "id") = (Ok tt, this')
    /\ this' = place (photo_of (example_record 0 0)) i (init "id")
    /\ _columnHeights this' !! i = Some NaN
    /\ forall ps, ps <> [] -> forEach ps _addPhotoToColumns this' = (Throw TypeError, this').
Proof.
  apply (nan_height_blocks_layout (photo_of (example_record 0 0)) (init "id")).
  - split; [done|]. split; [|done]. by repeat constructor.
  - reflexivity.
Defined.

(** ** The layout of a service in use *)






